(** * nostrstats: a shallow embedding of [client.py]

    The development follows [Client] method by method: the quorum loop of
    [get_notes], the latest-event loops of [get_relays] and
    [get_follower_and_their_relays], the filter of [get_notifications] and
    the greedy cover of [get_relay_statistics].  Plotting and HTML export
    are left out; the tables handed to them are kept. *)

From Stdlib Require Import List String ZArith Bool Arith Lia Sorted Permutation.
Import ListNotations.
Open Scope string_scope.
Open Scope Z_scope.

Set Implicit Arguments.

(** ** Python values used by the client *)

(** Exceptions that the modelled statements can raise. *)
Inductive Exn : Type :=
| KeyError (key : string)
| IndexError
| JSONDecodeError
| AttributeError
| ValueError
| OutOfBoundsDatetime.

(** Outcome of running a piece of client code: a value, a raised
    exception, or [Diverge] when the supplied fuel (network rounds, loop
    budget) is used up while the loop condition still holds. *)
Inductive Outcome (A : Type) : Type :=
| Ok (a : A)
| Raise (e : Exn)
| Diverge.

Arguments Ok {A} a.
Arguments Raise {A} e.
Arguments Diverge {A}.

Definition bind {A B : Type} (m : Outcome A) (k : A -> Outcome B) : Outcome B :=
  match m with
  | Ok a => k a
  | Raise e => Raise e
  | Diverge => Diverge
  end.

Notation "x <- m ;; k" := (bind m (fun x => k))
  (at level 61, m at next level, right associativity).
Notation "' p <- m ;; k" := (bind m (fun x => let p := x in k))
  (at level 61, p pattern, m at next level, right associativity).

(** A Python [dict] with string keys: insertion ordered, keys unique.
    [d[k] = v] overwrites the value of a present key where it stands and
    appends an absent key. *)
Module Dict.

Definition t (V : Type) : Type := list (string * V).

Definition empty {V : Type} : t V := [].

Fixpoint get {V : Type} (k : string) (d : t V) : option V :=
  match d with
  | [] => None
  | (k', v) :: rest => if String.eqb k' k then Some v else get k rest
  end.

Definition mem {V : Type} (k : string) (d : t V) : bool :=
  match get k d with Some _ => true | None => false end.

Fixpoint set {V : Type} (k : string) (v : V) (d : t V) : t V :=
  match d with
  | [] => [(k, v)]
  | (k', v') :: rest =>
      if String.eqb k' k then (k', v) :: rest else (k', v') :: set k v rest
  end.

Definition keys {V : Type} (d : t V) : list string := map fst d.
Definition values {V : Type} (d : t V) : list V := map snd d.

(** [d[k]] as an expression: [KeyError] on an absent key. *)
Definition item {V : Type} (k : string) (d : t V) : Outcome V :=
  match get k d with
  | Some v => Ok v
  | None => Raise (KeyError k)
  end.

End Dict.

(** The fields of a pynostr [Event]. *)
Record Event : Type := mkEvent {
  id : string;
  pubkey : string;
  created_at : Z;
  kind : Z;
  content : string;
  tags : list (list string);
  sig : string
}.

(** [EventKind] constants. *)
Definition TEXT_NOTE : Z := 1.
Definition CONTACTS : Z := 3.
Definition REACTION : Z := 7.
Definition ZAPPER : Z := 9735.

Record Filters : Type := mkFilters {
  kinds : list Z;
  authors : list string;
  pubkey_refs : list string
}.

(** ** The relay manager and its message pool

    The network is an external collaborator.  One [Round] is what the
    message pool holds after [run_sync] and the settle sleep of one
    iteration: the number of EOSE messages and the buffered event
    messages, in arrival order. *)
Record Round : Type := mkRound {
  eose : nat;
  event_msgs : list Event
}.

Inductive Action : Type :=
| AddSubscription (subscription_id : nat) (f : Filters)
| RunSync
| Sleep (seconds : nat)
| CloseSubscription (subscription_id : nat)
| CloseAllRelayConnections.

Record World : Type := mkWorld {
  relays : list string;      (* relay_manager.relays *)
  uuid_clock : nat;          (* the next value uuid1 hands out *)
  network : list Round;      (* the rounds the network will deliver *)
  trace : list Action        (* calls made on the relay manager, oldest first *)
}.

Definition wait_time : nat := 1.

(** ** [Client.get_notes] *)

(** The inner [while has_events()] loop: every drained message is stored
    under its event id. *)
Definition drain_events (msgs : list Event) (events : Dict.t Event) : Dict.t Event :=
  fold_left (fun events event => Dict.set (id event) event events) msgs events.

(** One pass through the body of the outer [while]. *)
Definition get_notes_round (f_filter_list : Filters) (r : Round) (w : World)
  : nat * Dict.t Event * World :=
  let events := Dict.empty in
  let subscription_id := uuid_clock w in
  let eose_count := eose r in
  let events := drain_events (event_msgs r) events in
  (eose_count, events,
   {| relays := relays w;
      uuid_clock := S (uuid_clock w);
      network := tl (network w);
      trace := trace w ++ [AddSubscription subscription_id f_filter_list;
                           RunSync; Sleep wait_time;
                           CloseSubscription subscription_id;
                           CloseAllRelayConnections] |}).

(** [while eose_count < relay_count * 0.5].  Halving is exact in binary
    floating point, so the test is [2 * eose_count < relay_count]. *)
Definition below_quorum (eose_count relay_count : nat) : bool :=
  (2 * eose_count <? relay_count)%nat.

(** The outer loop, by recursion on the rounds still to come. *)
Fixpoint get_notes_loop (f_filter_list : Filters) (relay_count eose_count : nat)
    (events : Dict.t Event) (rounds : list Round) (w : World)
  : Outcome (Dict.t Event * World) :=
  if below_quorum eose_count relay_count then
    match rounds with
    | [] => Diverge
    | r :: rest =>
        let '(eose_count, events, w) := get_notes_round f_filter_list r w in
        get_notes_loop f_filter_list relay_count eose_count events rest w
    end
  else Ok (events, w).

Definition get_notes (f_filter_list : Filters) (w : World)
  : Outcome (Dict.t Event * World) :=
  let relay_count := List.length (relays w) in
  let eose_count := 0%nat in
  let events := Dict.empty in
  get_notes_loop f_filter_list relay_count eose_count events (network w) w.

(** ** Decoding helpers supplied by libraries

    [PublicKey.from_npub(...).hex()] and [json.loads] are library calls;
    the client is modelled over any behaviour they may have. *)

(** What [json.loads] can return. *)
#[local] Unset Elimination Schemes.
Inductive PyValue : Type :=
| PyDict (items : list (string * PyValue))
| PyList (elems : list PyValue)
| PyStr (s : string)
| PyInt (z : Z)
| PyBool (b : bool)
| PyNone.
#[local] Set Elimination Schemes.

(** [list(v.keys())]: only a dict has the method. *)
Definition list_keys (v : PyValue) : Outcome (list string) :=
  match v with
  | PyDict items => Ok (map fst items)
  | _ => Raise AttributeError
  end.

Section Client.

Variable from_npub : string -> Outcome string.
(** [json.loads]: [None] when it raises [JSONDecodeError]. *)
Variable json_loads : string -> option PyValue.
(** Whether [pd.to_datetime(..., unit="s")] accepts a number of seconds:
    it raises [OutOfBoundsDatetime] outside the range of its timestamps. *)
Variable datetime_in_bounds : Z -> bool.

(** ** [Client.hex_from_npub] *)
Definition hex_from_npub (f_npub : string) : Outcome string :=
  if prefix "npub" f_npub then from_npub f_npub else Ok f_npub.

(** ** The latest-event loop shared by [get_relays] and
    [get_follower_and_their_relays] *)

(** The body of [for event_id, event in events.items()]. *)
Definition latest_step (relays_per_user : Dict.t Event) (event : Event)
  : Dict.t Event :=
  if (match Dict.get (pubkey event) relays_per_user with
      | None => true                                   (* not in relays_per_user *)
      | Some current => created_at current <? created_at event
      end)
     && (0 <? String.length (content event))%nat
  then Dict.set (pubkey event) event relays_per_user
  else relays_per_user.

Definition latest_per_author (events : Dict.t Event) : Dict.t Event :=
  fold_left latest_step (Dict.values events) Dict.empty.

(** [list(json.loads(event.content).keys())] *)
Definition decode_content (event : Event) : Outcome (list string) :=
  match json_loads (content event) with
  | None => Raise JSONDecodeError
  | Some v => list_keys v
  end.

(** [output[pub] = list(json.loads(event.content).keys())], for every
    item of [relays_per_user] in order; the first failure propagates. *)
Fixpoint decode_relays (relays_per_user : list (string * Event))
    (output : Dict.t (list string)) : Outcome (Dict.t (list string)) :=
  match relays_per_user with
  | [] => Ok output
  | (pub, event) :: rest =>
      ks <- decode_content event ;;
      decode_relays rest (Dict.set pub ks output)
  end.

(** Lines 183-194 of [get_relays], after the query. *)
Definition relays_of_events (events : Dict.t Event)
  : Outcome (Dict.t (list string)) :=
  let relays_per_user := latest_per_author events in
  decode_relays relays_per_user Dict.empty.

(** ** [Client.get_relays] *)
Definition get_relays (f_authors : list string) (w : World)
  : Outcome (Dict.t (list string) * World) :=
  let filters := {| kinds := [CONTACTS]; authors := f_authors; pubkey_refs := [] |} in
  '(events, w) <- get_notes filters w ;;
  output <- relays_of_events events ;;
  Ok (output, w).

(** ** [Client.get_own_relays] *)
Definition get_own_relays (npub : string) (w : World)
  : Outcome (list string * World) :=
  npub_hex <- hex_from_npub npub ;;
  '(relays_per_user, w) <- get_relays [npub_hex] w ;;
  own <- Dict.item npub_hex relays_per_user ;;
  Ok (own, w).

(** ** [Client.get_follower_and_their_relays]

    [following] is a Python set; it is kept here as the list of distinct
    authors in first-seen order. *)
Definition set_add (x : string) (s : list string) : list string :=
  if existsb (String.eqb x) s then s else s ++ [x].

Definition following_of (events : Dict.t Event) : list string :=
  fold_left (fun following event => set_add (pubkey event) following)
            (Dict.values events) [].

Definition get_follower_and_their_relays (npub : string) (w : World)
  : Outcome (list string * Dict.t (list string) * World) :=
  npub_hex <- hex_from_npub npub ;;
  let filters := {| kinds := [CONTACTS]; authors := []; pubkey_refs := [npub_hex] |} in
  '(events, w) <- get_notes filters w ;;
  let following := following_of events in
  output <- relays_of_events events ;;
  Ok (following, output, w).

(** ** [Client.get_notifications] *)

Inductive Cell : Type :=
| CStr (s : string)
| CInt (z : Z)
| CTags (t : list (list string)).

(** [event.__dict__], in the order of the fields of the dataclass. *)
Definition event_dict (e : Event) : Dict.t Cell :=
  [("content", CStr (content e)); ("pubkey", CStr (pubkey e));
   ("created_at", CInt (created_at e)); ("kind", CInt (kind e));
   ("tags", CTags (tags e)); ("id", CStr (id e)); ("sig", CStr (sig e))].

(** A frame built from records: its column labels and its rows.  Every
    record of the client has the same keys, so the columns are those of
    the first record, and there are none when there is no record. *)
Record RecordFrame : Type := mkRecordFrame {
  columns : list string;
  records : list (Dict.t Cell)
}.

Definition DataFrame_of_records (data : list (Dict.t Cell)) : RecordFrame :=
  {| columns := match data with [] => [] | d :: _ => Dict.keys d end;
     records := data |}.

(** [f] applied to every element in order; the first failure propagates. *)
Fixpoint map_outcome {A B : Type} (f : A -> Outcome B) (l : list A)
  : Outcome (list B) :=
  match l with
  | [] => Ok []
  | x :: rest =>
      y <- f x ;;
      ys <- map_outcome f rest ;;
      Ok (y :: ys)
  end.

(** [df[dst] = f(df[src])]: [KeyError] when [src] is not a column. *)
Definition derive_column (src dst : string) (f : Cell -> Outcome Cell)
    (df : RecordFrame) : Outcome RecordFrame :=
  if existsb (String.eqb src) (columns df) then
    rows <- map_outcome (fun r => match Dict.get src r with
                                  | Some c => c' <- f c ;; Ok (Dict.set dst c' r)
                                  | None => Ok r
                                  end) (records df) ;;
    Ok {| columns := if existsb (String.eqb dst) (columns df)
                     then columns df else columns df ++ [dst];
          records := rows |}
  else Raise (KeyError src).

(** A timestamp is kept as its seconds since the epoch, a time of day as
    its seconds since midnight. *)
Definition to_datetime (c : Cell) : Outcome Cell :=
  match c with
  | CInt z => if datetime_in_bounds z then Ok (CInt z) else Raise OutOfBoundsDatetime
  | other => Ok other
  end.

(** [.dt.time] *)
Definition dt_time (c : Cell) : Outcome Cell :=
  match c with CInt z => Ok (CInt (z mod 86400)) | other => Ok other end.

(** The [for] loop that fills [data]. *)
Definition notification_data (npub_hex : string) (events : Dict.t Event)
  : list (Dict.t Cell) :=
  map event_dict
      (filter (fun event => negb (String.eqb (pubkey event) npub_hex))
              (Dict.values events)).

(** Lines 207-214, after the query. *)
Definition notifications_frame (npub_hex : string) (events : Dict.t Event)
  : Outcome RecordFrame :=
  let data := notification_data npub_hex events in
  let df := DataFrame_of_records data in
  df <- derive_column "created_at" "date" to_datetime df ;;
  df <- derive_column "date" "time" dt_time df ;;
  Ok df.

Definition get_notifications (npub : string) (w : World)
  : Outcome (RecordFrame * World) :=
  npub_hex <- hex_from_npub npub ;;
  let filters := {| kinds := [ZAPPER; TEXT_NOTE; REACTION]; authors := [];
                    pubkey_refs := [npub_hex] |} in
  '(events, w) <- get_notes filters w ;;
  df <- notifications_frame npub_hex events ;;
  Ok (df, w).

End Client.

(** ** [Client.get_relay_statistics]

    A pandas frame is kept row by row: the row's index label and its
    cells, each cell under its column label.  All rows of a frame carry
    the same column labels in the same order, so a column assignment is a
    [Dict.set] on every row. *)
Definition Frame (A : Type) : Type := list (string * Dict.t A).

Section RelayStatistics.

(** [parse.urlparse(relay).hostname] *)
Variable hostname : string -> string.

(** [df.sort_values(["Count"], ascending=False)].  The default sort of
    pandas is not stable, so the order of rows with equal counts is left
    to the sort at hand; the properties below assume of it only that it
    permutes the rows into descending order of [Count]. *)
Variable sort_values : Frame Z -> Frame Z.

(** Lines 302-307: [result[pub][hostname] = 1]. *)
Definition usage_of (relays : list string) : Dict.t Z :=
  fold_left (fun inner relay => Dict.set (hostname relay) 1 inner) relays Dict.empty.

Definition usage_dict (f_relays_by_pub : Dict.t (list string)) : Dict.t (Dict.t Z) :=
  fold_left (fun result '(pub, relays) => Dict.set pub (usage_of relays) result)
            f_relays_by_pub Dict.empty.

(** [pd.DataFrame(result)] on a dict of dicts: one column per outer key,
    one row per inner key in order of first appearance, a missing entry
    where the inner dict has no such key. *)
Definition union_index (result : Dict.t (Dict.t Z)) : list string :=
  fold_left (fun index inner =>
               fold_left (fun index relay => set_add relay index)
                         (Dict.keys inner) index)
            (Dict.values result) [].

Definition DataFrame_of_dict (result : Dict.t (Dict.t Z)) : Frame (option Z) :=
  map (fun relay =>
         (relay, map (fun '(pub, inner) => (pub, Dict.get relay inner)) result))
      (union_index result).

Definition fillna (v : Z) (df : Frame (option Z)) : Frame Z :=
  map (fun '(relay, cells) =>
         (relay, map (fun '(pub, x) =>
                        (pub, match x with Some z => z | None => v end)) cells))
      df.

(** [df.sum(axis=1)], for one row. *)
Definition row_sum (cells : Dict.t Z) : Z :=
  fold_right Z.add 0 (Dict.values cells).

(** [df["Count"] = df.sum(axis=1)] *)
Definition set_count (df : Frame Z) : Frame Z :=
  map (fun '(relay, cells) => (relay, Dict.set "Count" (row_sum cells) cells)) df.

Definition count_of (cells : Dict.t Z) : Z :=
  match Dict.get "Count" cells with Some c => c | None => 0 end.

(** [new_df.drop([relay], axis=0)] *)
Definition drop_rows (relay : string) (df : Frame Z) : Frame Z :=
  filter (fun row => negb (String.eqb (fst row) relay)) df.

(** [new_df.drop(columns_to_drop, axis=1)] *)
Definition drop_columns (columns_to_drop : list string) (df : Frame Z) : Frame Z :=
  map (fun '(relay, cells) =>
         (relay, filter (fun c => negb (existsb (String.eqb (fst c)) columns_to_drop))
                        cells))
      df.

(** [np.array(new_df.columns)[values > 0]] *)
Definition columns_where_positive (values : Dict.t Z) : list string :=
  Dict.keys (filter (fun c => 0 <? snd c) values).

(** Lines 301-313: the usage frame with its sorted [Count] column. *)
Definition usage_frame (f_relays_by_pub : Dict.t (list string)) : Frame Z :=
  let result := usage_dict f_relays_by_pub in
  let df := DataFrame_of_dict result in
  let df := fillna 0 df in
  let df := set_count df in
  sort_values df.

(** Lines 346-353, on the frame: the selected row is dropped, then the
    columns in which it is positive (its own [Count] among them), and
    [Count] is summed and sorted anew. *)
Definition cover_step (relay : string) (values : Dict.t Z) (new_df : Frame Z)
  : Frame Z :=
  let new_df := drop_rows relay new_df in
  let columns_to_drop := columns_where_positive values in
  let new_df := drop_columns columns_to_drop new_df in
  let new_df := set_count new_df in
  sort_values new_df.

(** Lines 345-353.  [new_df["Count"].iloc[0]] raises [IndexError] on a
    frame without rows.  Every pass drops a row, so [fuel] beyond the
    number of rows is never used up. *)
Fixpoint cover_loop (fuel : nat) (new_df : Frame Z)
    (minimum_necessary_relays : Dict.t (Dict.t Z))
  : Outcome (Dict.t (Dict.t Z) * Frame Z) :=
  match fuel with
  | O => Diverge
  | S fuel =>
      match new_df with
      | [] => Raise IndexError
      | (relay, values) :: _ =>
          match Dict.get "Count" values with
          | None => Raise (KeyError "Count")
          | Some count =>
              if 0 <? count then
                let minimum_necessary_relays :=
                  Dict.set relay Dict.empty minimum_necessary_relays in
                cover_loop fuel (cover_step relay values new_df)
                           minimum_necessary_relays
              else Ok (minimum_necessary_relays, new_df)
          end
      end
  end.

(** [df["Count"][relay]] *)
Definition count_at (df : Frame Z) (relay : string) : Outcome Z :=
  cells <- Dict.item relay df ;;
  Dict.item "Count" cells.

(** Lines 355-356. *)
Fixpoint fill_counts (df : Frame Z) (relays : list string)
    (minimum_necessary_relays : Dict.t (Dict.t Z))
  : Outcome (Dict.t (Dict.t Z)) :=
  match relays with
  | [] => Ok minimum_necessary_relays
  | relay :: rest =>
      c <- count_at df relay ;;
      entry <- Dict.item relay minimum_necessary_relays ;;
      fill_counts df rest
        (Dict.set relay (Dict.set "Number of followers" c entry)
                  minimum_necessary_relays)
  end.

(** Lines 358-362: transpose, [reset_index], two column names.  A dict
    without keys gives a frame with the single column [index], and
    naming two columns on it raises [ValueError]. *)
Definition cover_table (minimum_necessary_relays : Dict.t (Dict.t Z))
  : Outcome (list (string * Z)) :=
  match minimum_necessary_relays with
  | [] => Raise ValueError
  | _ =>
      Ok (map (fun '(relay, entry) =>
                 (relay, match Dict.get "Number of followers" entry with
                         | Some c => c
                         | None => 0
                         end))
              minimum_necessary_relays)
  end.

(** Lines 341-362. *)
Definition minimal_cover (df : Frame Z) : Outcome (list (string * Z)) :=
  let new_df := df in
  let minimum_necessary_relays := Dict.empty in
  '(minimum_necessary_relays, _) <-
    cover_loop (S (List.length new_df)) new_df minimum_necessary_relays ;;
  minimum_necessary_relays <-
    fill_counts df (Dict.keys minimum_necessary_relays) minimum_necessary_relays ;;
  cover_table minimum_necessary_relays.

(** The two tables that the report sections are drawn from. *)
Record RelayReport : Type := mkRelayReport {
  relays_of_followers_table : option (list (string * Z));
  necessary_relays_table : option (list (string * Z))
}.

(** Lines 315-339: the table of counts.  [fig.update_layout] is given
    [height=counts.shape[0]], the number of rows, and plotly raises
    [ValueError] for a height below 10. *)
Definition relays_of_followers_section (df : Frame Z)
  : Outcome (list (string * Z)) :=
  let counts := map (fun '(relay, cells) => (relay, count_of cells)) df in
  if (List.length counts <? 10)%nat then Raise ValueError else Ok counts.

Definition get_relay_statistics (relays_of_followers necessary_relays : bool)
    (f_relays_by_pub : Dict.t (list string)) : Outcome RelayReport :=
  let df := usage_frame f_relays_by_pub in
  counts <- (if relays_of_followers
             then counts <- relays_of_followers_section df ;; Ok (Some counts)
             else Ok None) ;;
  if necessary_relays then
    table <- minimal_cover df ;;
    Ok {| relays_of_followers_table := counts;
          necessary_relays_table := Some table |}
  else Ok {| relays_of_followers_table := counts;
             necessary_relays_table := None |}.

End RelayStatistics.

(** A sort that meets the assumption on [sort_values]: the stable
    descending insertion sort, in which rows with equal counts keep their
    order.  It serves to run the statistics on concrete inputs. *)
Fixpoint insert_desc (row : string * Dict.t Z) (sorted : Frame Z) : Frame Z :=
  match sorted with
  | [] => [row]
  | r :: rest =>
      if count_of (snd r) <? count_of (snd row)
      then row :: r :: rest
      else r :: insert_desc row rest
  end.

Definition stable_sort (df : Frame Z) : Frame Z :=
  fold_left (fun sorted row => insert_desc row sorted) df [].

(** A stand-in for [urlparse(...).hostname] on URLs of the shape
    [wss://host]: the text after the scheme separator. *)
Definition strip_scheme (url : string) : string :=
  if prefix "wss://" url then substring 6 (String.length url - 6) url else url.

(** ** Notions used to state the properties *)

(** [del d[k]] *)
Definition dict_remove {V : Type} (k : string) (d : Dict.t V) : Dict.t V :=
  filter (fun kv => negb (String.eqb (fst kv) k)) d.

(** The keys of the JSON object in an event's content (none when the
    content is no object). *)
Definition decoded_keys (json_loads : string -> option PyValue) (e : Event)
  : list string :=
  match json_loads (content e) with
  | Some (PyDict items) => map fst items
  | _ => []
  end.

(** The row of the notification frame that an event becomes. *)
Definition notification_row (e : Event) : Dict.t Cell :=
  (event_dict e ++ [("date", CInt (created_at e));
                    ("time", CInt (created_at e mod 86400))])%list.

Definition notification_columns : list string :=
  ["content"; "pubkey"; "created_at"; "kind"; "tags"; "id"; "sig"; "date"; "time"].

Definition notification_filters (npub_hex : string) : Filters :=
  {| kinds := [ZAPPER; TEXT_NOTE; REACTION]; authors := []; pubkey_refs := [npub_hex] |}.

(** The drain as the specification words it: an arrival whose id is
    already present is discarded. *)
Definition drain_first_seen (msgs : list Event) (events : Dict.t Event) : Dict.t Event :=
  fold_left (fun events event =>
               if Dict.mem (id event) events then events
               else Dict.set (id event) event events)
            msgs events.

(** The latest arrival with a given id. *)
Definition last_arrival (k : string) (msgs : list Event) : option Event :=
  find (fun event => String.eqb (id event) k) (rev msgs).

(** The relay-manager calls of one pass of the quorum loop. *)
Definition round_actions (f : Filters) (subscription_id : nat) : list Action :=
  [AddSubscription subscription_id f; RunSync; Sleep wait_time;
   CloseSubscription subscription_id; CloseAllRelayConnections].

(** The world after [k] passes that started in [w]. *)
Definition after_rounds (f : Filters) (k : nat) (w : World) : World :=
  {| relays := relays w;
     uuid_clock := uuid_clock w + k;
     network := skipn k (network w);
     trace := trace w ++ flat_map (round_actions f) (seq (uuid_clock w) k) |}.

(** The subscription tokens sent so far, one per pass of the loop. *)
Definition subscription_ids (t : list Action) : list nat :=
  flat_map (fun a => match a with AddSubscription s _ => [s] | _ => [] end) t.

Definition iterations_between (w w' : World) : nat :=
  List.length (subscription_ids (trace w')) - List.length (subscription_ids (trace w)).

(** What the latest-event loop has established after the events [done]. *)
Definition latest_inv (done : list Event) (rpu : Dict.t Event) : Prop :=
  (forall a rep,
      Dict.get a rpu = Some rep ->
      exists before after,
        done = (before ++ rep :: after)%list /\ pubkey rep = a /\ content rep <> "" /\
        (forall e, In e before -> pubkey e = a -> content e <> "" ->
                   created_at e < created_at rep) /\
        (forall e, In e after -> pubkey e = a -> content e <> "" ->
                   created_at e <= created_at rep)) /\
  (forall a, Dict.get a rpu = None ->
             forall e, In e done -> pubkey e = a -> content e = "").


(** *** Relay statistics *)

(** The cells of a row outside the columns [dropped]. *)
Definition keep_columns (dropped : list string) (cells : Dict.t Z) : Dict.t Z :=
  filter (fun c => negb (existsb (String.eqb (fst c)) dropped)) cells.

(** A row of the usage matrix as the loop sees it once the columns
    [dropped] are gone: the remaining cells and their sum under [Count]. *)
Definition view (dropped : list string) (cells : Dict.t Z) : Dict.t Z :=
  Dict.set "Count" (row_sum (keep_columns dropped cells))
           (keep_columns dropped cells).

(** The relays picked by the greedy loop, in the order picked. *)
Fixpoint selection (sort_values : Frame Z -> Frame Z) (fuel : nat)
    (new_df : Frame Z) : list string :=
  match fuel with
  | O => []
  | S fuel =>
      match new_df with
      | [] => []
      | (relay, values) :: _ =>
          if 0 <? count_of values
          then relay :: selection sort_values fuel
                          (cover_step sort_values relay values new_df)
          else []
      end
  end.

(** Rows sorted by descending [Count]. *)
Definition sorted_desc (df : Frame Z) : Prop :=
  StronglySorted (fun a b => count_of (snd b) <= count_of (snd a)) df.

(** What the greedy loop maintains between the usage matrix [base]
    (before its [Count] column), the current frame and the relays
    selected so far. *)
Definition cover_inv (base : Frame Z) (new_df : Frame Z)
    (selected : Dict.t (Dict.t Z)) : Prop :=
  exists dropped : list string,
    (forall r cells, In (r, cells) new_df ->
        exists cells0, In (r, cells0) base /\ Dict.get r selected = None /\
                       cells = view dropped cells0) /\
    (forall r cells0, In (r, cells0) base -> Dict.get r selected = None ->
        In (r, view dropped cells0) new_df) /\
    (forall f, In f dropped ->
        f = "Count" \/
        exists s cells0 v, Dict.get s selected <> None /\ In (s, cells0) base /\
                           In (f, v) cells0 /\ 0 < v) /\
    (forall s cells0 f v, Dict.get s selected <> None -> In (s, cells0) base ->
        In (f, v) cells0 -> 0 < v -> In f dropped) /\
    (forall s, Dict.get s selected <> None -> exists cells0, In (s, cells0) base) /\
    sorted_desc new_df.

Section UsageNotions.

Variable hostname : string -> string.

(** Whether a follower with the relay list [urls] uses the relay host [r]. *)
Definition uses (r : string) (urls : list string) : bool :=
  existsb (String.eqb r) (map hostname urls).

(** The number of followers that use [r]. *)
Definition usage_count (f_relays_by_pub : Dict.t (list string)) (r : string) : Z :=
  Z.of_nat (List.length (filter (fun entry => uses r (snd entry)) f_relays_by_pub)).

(** The number of followers that use [r] and none of the relays [chosen]:
    the followers newly covered by selecting [r] after [chosen]. *)
Definition newly_covered (f_relays_by_pub : Dict.t (list string))
    (chosen : list string) (r : string) : Z :=
  Z.of_nat (List.length
              (filter (fun entry =>
                         uses r (snd entry) &&
                         negb (existsb (fun c => uses c (snd entry)) chosen))
                      f_relays_by_pub)).

(** The followers that use [r]. *)
Definition followers_of (f_relays_by_pub : Dict.t (list string)) (r : string)
  : list string :=
  Dict.keys (filter (fun entry => uses r (snd entry)) f_relays_by_pub).

(** The relay hosts that appear in the input. *)
Definition relay_hosts (f_relays_by_pub : Dict.t (list string)) : list string :=
  flat_map (fun entry => map hostname (snd entry)) f_relays_by_pub.

(** The cells of the row of host [r]: one 0/1 cell per follower. *)
Definition usage_cells (f_relays_by_pub : Dict.t (list string)) (r : string)
  : Dict.t Z :=
  map (fun entry => (fst entry, if uses r (snd entry) then 1 else 0)) f_relays_by_pub.

(** The usage matrix written out: one row per host, in the order of the
    frame's index. *)
Definition usage_matrix (f_relays_by_pub : Dict.t (list string)) : Frame Z :=
  map (fun r => (r, usage_cells f_relays_by_pub r))
      (union_index (usage_dict hostname f_relays_by_pub)).

End UsageNotions.

(** ** Concrete inputs used below *)

(** Two arrivals of one event, and an arrival of another event. *)
Definition arrival_1 : Event :=
  {| id := "e1"; pubkey := "alice"; created_at := 100; kind := 1; content := "first";
     tags := []; sig := "" |}.
Definition arrival_other : Event :=
  {| id := "e2"; pubkey := "alice"; created_at := 150; kind := 1; content := "second";
     tags := []; sig := "" |}.

Definition no_filters : Filters := {| kinds := []; authors := []; pubkey_refs := [] |}.

(** Four active relays; in every round two of them signal EOSE at once. *)
Definition four_relays : World :=
  {| relays := ["wss://r1"; "wss://r2"; "wss://r3"; "wss://r4"];
     uuid_clock := 0;
     network := [mkRound 2 [arrival_1]; mkRound 2 [arrival_1]; mkRound 2 [arrival_1]];
     trace := [] |}.

(** No active relay, with a network that would still deliver a round. *)
Definition no_relays : World :=
  {| relays := []; uuid_clock := 0; network := [mkRound 0 []]; trace := [] |}.

(** Relay-list events of one author. *)
Definition bob_100 : Event :=
  {| id := "a"; pubkey := "bob"; created_at := 100; kind := 3; content := "{}";
     tags := []; sig := "" |}.
Definition bob_200 : Event :=
  {| id := "b"; pubkey := "bob"; created_at := 200; kind := 3; content := "{}";
     tags := []; sig := "" |}.
Definition bob_200_empty : Event :=
  {| id := "b"; pubkey := "bob"; created_at := 200; kind := 3; content := "";
     tags := []; sig := "" |}.
Definition bob_100_again : Event :=
  {| id := "c"; pubkey := "bob"; created_at := 100; kind := 3; content := "{ }";
     tags := []; sig := "" |}.

Definition carol_bad : Event :=
  {| id := "x"; pubkey := "carol"; created_at := 150; kind := 3; content := "not json";
     tags := []; sig := "" |}.
Definition dave_note : Event :=
  {| id := "n"; pubkey := "dave"; created_at := 86500; kind := 1; content := "hi";
     tags := []; sig := "" |}.
Definition own_note : Event :=
  {| id := "o"; pubkey := "abc"; created_at := 5; kind := 1; content := "me";
     tags := []; sig := "" |}.

(** A decoder that agrees with [json.loads] on the contents used here:
    the empty object decodes, a text that starts with a letter does not. *)
Definition json_stub (s : string) : option PyValue :=
  if String.eqb s "{}" then Some (PyDict [])
  else if String.eqb s "{ }" then Some (PyDict [])
  else if String.eqb s "[]" then Some (PyList [])
  else None.

Definition npub_stub (s : string) : Outcome string := Raise ValueError.

(** One relay that signals EOSE and delivers no event. *)
Definition quiet_relay : World :=
  {| relays := ["wss://r1"]; uuid_clock := 0; network := [mkRound 1 []]; trace := [] |}.

(** One relay that delivers a note of another author and one of the
    queried identity. *)
Definition busy_relay : World :=
  {| relays := ["wss://r1"]; uuid_clock := 0;
     network := [mkRound 1 [dave_note; own_note]]; trace := [] |}.

(** The followers of the specification's example. *)
Definition example_followers : Dict.t (list string) :=
  [("A", ["wss://r1"; "wss://r2"]); ("B", ["wss://r2"]); ("C", ["wss://r3"])].

(** One follower on one relay. *)
Definition single_follower : Dict.t (list string) := [("A", ["wss://r1"])].

(** Followers whose second selected relay newly covers fewer followers
    than use it. *)
Definition overlapping_followers : Dict.t (list string) :=
  [("A", ["wss://r1"; "wss://r2"]); ("B", ["wss://r1"]); ("C", ["wss://r2"]);
   ("D", ["wss://r1"; "wss://r3"])].

(** A follower whose only event has empty content. *)
Definition erin_empty : Event :=
  {| id := "e"; pubkey := "erin"; created_at := 120; kind := 3; content := "";
     tags := []; sig := "" |}.

(** One relay that delivers the contact events of two followers. *)
Definition contacts_relay : World :=
  {| relays := ["wss://r1"]; uuid_clock := 0;
     network := [mkRound 1 [bob_100; erin_empty]]; trace := [] |}.

(** One relay that delivers only a note of the queried identity. *)
Definition own_only_relay : World :=
  {| relays := ["wss://r1"]; uuid_clock := 0;
     network := [mkRound 1 [own_note]]; trace := [] |}.

(** The JSON text of an object with the single key [wss://r1]. *)
Definition dquote : string := String (Ascii.ascii_of_nat 34) EmptyString.
Definition relay_list_json : string :=
  ("{" ++ dquote ++ "wss://r1" ++ dquote ++ ":{}}")%string.

(** Two relay-list events of the identity [abc]. *)
Definition own_100 : Event :=
  {| id := "p"; pubkey := "abc"; created_at := 100; kind := 3; content := "{}";
     tags := []; sig := "" |}.
Definition own_200 : Event :=
  {| id := "q"; pubkey := "abc"; created_at := 200; kind := 3;
     content := relay_list_json;
     tags := []; sig := "" |}.

(** A decoder that also knows [relay_list_json]. *)
Definition json_stub_relays (s : string) : option PyValue :=
  if String.eqb s relay_list_json then Some (PyDict [("wss://r1", PyDict [])])
  else json_stub s.

(** One relay that delivers both relay-list events of the identity. *)
Definition own_relays_relay : World :=
  {| relays := ["wss://r1"]; uuid_clock := 0;
     network := [mkRound 1 [own_100; own_200]]; trace := [] |}.

(** ** [Client.load_config]

    The file [config.json] is [None] when it does not exist and its text
    otherwise.  [json.load] and [json.dump] are library calls; a failure
    of the former is caught by the bare [except]. *)
Definition DEFAULT_RELAYS : list string :=
  ["wss://nos.lol"; "wss://nostr.mom"; "wss://relay.austrich.net";
   "wss://nostr-pub.wellorder.net"; "wss://relay.damus.io";
   "wss://nostr.bitcoiner.social"].

Definition default_config : PyValue :=
  PyDict [("relays", PyList (map PyStr DEFAULT_RELAYS))].

Section Config.

Variable json_load : string -> option PyValue.
Variable json_dump : PyValue -> string.

(** Returns the configuration and the file as the call leaves it. *)
Definition load_config (config_file : option string) : PyValue * option string :=
  let data := default_config in
  match config_file with
  | Some text =>
      (match json_load text with
       | Some loaded => loaded
       | None => data
       end, config_file)
  | None => (data, Some (json_dump data))
  end.

End Config.

(** The subscription tokens closed so far. *)
Definition closed_subscription_ids (t : list Action) : list nat :=
  flat_map (fun a => match a with CloseSubscription s => [s] | _ => [] end) t.

(** A dump and a load that round-trip on the default configuration. *)
Definition dump_stub (v : PyValue) : string := "default".
Definition load_stub (s : string) : option PyValue :=
  if String.eqb s "default" then Some default_config else None.

(** Ten followers on ten relay hosts: host [r01] is used by one follower,
    [r02] by two, and so on, so that no two hosts have the same count. *)
Definition ten_hosts_followers : Dict.t (list string) :=
  [
 ("F01", ["wss://r01"; "wss://r02"; "wss://r03"; "wss://r04"; "wss://r05"; "wss://r06"; "wss://r07"; "wss://r08"; "wss://r09"; "wss://r10"]);
 ("F02", ["wss://r02"; "wss://r03"; "wss://r04"; "wss://r05"; "wss://r06"; "wss://r07"; "wss://r08"; "wss://r09"; "wss://r10"]);
 ("F03", ["wss://r03"; "wss://r04"; "wss://r05"; "wss://r06"; "wss://r07"; "wss://r08"; "wss://r09"; "wss://r10"]);
 ("F04", ["wss://r04"; "wss://r05"; "wss://r06"; "wss://r07"; "wss://r08"; "wss://r09"; "wss://r10"]);
 ("F05", ["wss://r05"; "wss://r06"; "wss://r07"; "wss://r08"; "wss://r09"; "wss://r10"]);
 ("F06", ["wss://r06"; "wss://r07"; "wss://r08"; "wss://r09"; "wss://r10"]);
 ("F07", ["wss://r07"; "wss://r08"; "wss://r09"; "wss://r10"]);
 ("F08", ["wss://r08"; "wss://r09"; "wss://r10"]);
 ("F09", ["wss://r09"; "wss://r10"]);
 ("F10", ["wss://r10"])
  ].

(** The whole seconds that a timestamp of 64 bits of nanoseconds holds. *)
Definition in_bounds_stub (z : Z) : bool :=
  (-9223372036 <=? z) && (z <=? 9223372036).

(** A note of another author whose [created_at] lies beyond that range. *)
Definition far_note : Event :=
  {| id := "f"; pubkey := "dave"; created_at := 10000000000; kind := 1;
     content := "late"; tags := []; sig := "" |}.

(** One relay that delivers that note. *)
Definition far_relay : World :=
  {| relays := ["wss://r1"]; uuid_clock := 0;
     network := [mkRound 1 [far_note]]; trace := [] |}.

(** * Properties *)

(** ** Dictionaries *)
Module DictFacts.

Lemma get_set_same {V : Type} (k : string) (v : V) (d : Dict.t V) :
  Dict.get k (Dict.set k v d) = Some v.
Proof.
  induction d as [|[k' v'] d IH]; simpl.
  - now rewrite String.eqb_refl.
  - destruct (String.eqb k' k) eqn:E; simpl; now rewrite E.
Qed.

Lemma get_set_other {V : Type} (k k' : string) (v : V) (d : Dict.t V) :
  k <> k' -> Dict.get k' (Dict.set k v d) = Dict.get k' d.
Proof.
  intros Hne. induction d as [|[k0 v0] d IH]; simpl.
  - destruct (String.eqb_spec k k'); [contradiction | reflexivity].
  - destruct (String.eqb_spec k0 k) as [->|Hk]; simpl.
    + destruct (String.eqb_spec k k'); [contradiction | reflexivity].
    + destruct (String.eqb_spec k0 k'); [reflexivity | exact IH].
Qed.

Lemma get_Some_In {V : Type} (k : string) (v : V) (d : Dict.t V) :
  Dict.get k d = Some v -> In (k, v) d.
Proof.
  induction d as [|[k0 v0] d IH]; simpl; [discriminate|].
  destruct (String.eqb_spec k0 k) as [->|Hk]; intros H.
  - injection H as ->. now left.
  - right. auto.
Qed.

Lemma get_None_keys {V : Type} (k : string) (d : Dict.t V) :
  Dict.get k d = None <-> ~ In k (Dict.keys d).
Proof.
  induction d as [|[k0 v0] d IH]; simpl.
  - tauto.
  - destruct (String.eqb_spec k0 k) as [->|Hk].
    + split; [discriminate | intros H; exfalso; apply H; now left].
    + rewrite IH. tauto.
Qed.

Lemma get_None_keys' {V : Type} (k : string) (d : Dict.t V) :
  Dict.get k d <> None -> In k (Dict.keys d).
Proof.
  intros H. destruct (in_dec string_dec k (Dict.keys d)) as [Hin|Hin]; [exact Hin|].
  apply get_None_keys in Hin. contradiction.
Qed.

Lemma mem_keys {V : Type} (k : string) (d : Dict.t V) :
  Dict.mem k d = true <-> In k (Dict.keys d).
Proof.
  unfold Dict.mem. destruct (Dict.get k d) eqn:E.
  - split; [intros _ | reflexivity].
    apply get_Some_In in E. apply (in_map fst) in E. exact E.
  - apply get_None_keys in E. split; [discriminate | contradiction].
Qed.

Lemma In_get_NoDup {V : Type} (k : string) (v : V) (d : Dict.t V) :
  NoDup (Dict.keys d) -> In (k, v) d -> Dict.get k d = Some v.
Proof.
  induction d as [|[k0 v0] d IH]; simpl; [tauto|].
  intros Hnd [H|H].
  - injection H as -> ->. now rewrite String.eqb_refl.
  - inversion Hnd as [|? ? Hnot Hnd']; subst.
    destruct (String.eqb_spec k0 k) as [->|Hk].
    + exfalso. apply Hnot. apply (in_map fst) in H. exact H.
    + auto.
Qed.

(** Assigning to an absent key appends it. *)
Lemma set_absent {V : Type} (k : string) (v : V) (d : Dict.t V) :
  Dict.get k d = None -> Dict.set k v d = (d ++ [(k, v)])%list.
Proof.
  induction d as [|[k0 v0] d IH]; simpl; [reflexivity|].
  destruct (String.eqb k0 k); [discriminate|].
  intros H. now rewrite IH.
Qed.

(** Assigning to a present key keeps every key where it stands. *)
Lemma keys_set_present {V : Type} (k : string) (v : V) (d : Dict.t V) :
  Dict.get k d <> None -> Dict.keys (Dict.set k v d) = Dict.keys d.
Proof.
  induction d as [|[k0 v0] d IH]; simpl; [congruence|].
  destruct (String.eqb_spec k0 k) as [->|Hk]; simpl; [reflexivity|].
  intros H. f_equal. apply IH, H.
Qed.

Lemma keys_set {V : Type} (k : string) (v : V) (d : Dict.t V) :
  Dict.keys (Dict.set k v d) =
  if Dict.mem k d then Dict.keys d else (Dict.keys d ++ [k])%list.
Proof.
  unfold Dict.mem. destruct (Dict.get k d) eqn:E.
  - apply keys_set_present. congruence.
  - rewrite set_absent by exact E. unfold Dict.keys. now rewrite map_app.
Qed.

Lemma set_same_value {V : Type} (k : string) (v : V) (d : Dict.t V) :
  Dict.get k d = Some v -> Dict.set k v d = d.
Proof.
  induction d as [|[k0 v0] d IH]; simpl; [discriminate|].
  destruct (String.eqb_spec k0 k) as [->|Hk]; intros H.
  - now injection H as ->.
  - now rewrite IH.
Qed.

Lemma NoDup_keys_set {V : Type} (k : string) (v : V) (d : Dict.t V) :
  NoDup (Dict.keys d) -> NoDup (Dict.keys (Dict.set k v d)).
Proof.
  intros Hnd. rewrite keys_set. destruct (Dict.mem k d) eqn:E; [exact Hnd|].
  assert (Hnot : ~ In k (Dict.keys d)).
  { intros Hin. apply mem_keys in Hin. congruence. }
  clear E. induction (Dict.keys d) as [|x l IH]; simpl.
  - constructor; [tauto | constructor].
  - inversion Hnd; subst. constructor.
    + rewrite in_app_iff. simpl. intros [H|[H|[]]]; [contradiction|].
      apply Hnot. now left.
    + apply IH; [assumption|]. intros H. apply Hnot. now right.
Qed.

End DictFacts.

(** ** The event map of one aggregation round *)
Section Drain.

Lemma find_app {A : Type} (p : A -> bool) (l1 l2 : list A) :
  find p (l1 ++ l2)%list =
  match find p l1 with Some x => Some x | None => find p l2 end.
Proof.
  induction l1 as [|x l1 IH]; simpl; [reflexivity|].
  now destruct (p x).
Qed.

Lemma drain_events_get (msgs : list Event) :
  forall (events : Dict.t Event) (k : string),
    Dict.get k (drain_events msgs events) =
    match last_arrival k msgs with
    | Some e => Some e
    | None => Dict.get k events
    end.
Proof.
  unfold last_arrival.
  induction msgs as [|m msgs IH]; intros events k; simpl; [reflexivity|].
  unfold drain_events in *. simpl. rewrite IH, find_app. simpl.
  destruct (find _ (rev msgs)); [reflexivity|].
  destruct (String.eqb_spec (id m) k) as [<-|Hk].
  - apply DictFacts.get_set_same.
  - now apply DictFacts.get_set_other.
Qed.

Lemma drain_events_keys (msgs : list Event) :
  forall events,
    Dict.keys (drain_events msgs events) = Dict.keys (drain_first_seen msgs events).
Proof.
  unfold drain_events, drain_first_seen.
  induction msgs as [|m msgs IH]; intros events; simpl; [reflexivity|].
  destruct (Dict.mem (id m) events) eqn:E.
  - rewrite IH.
    (* the key is present: the two maps differ in one value only *)
    revert E. generalize (id m) as k. intros k E.
    assert (Hk : Dict.keys (Dict.set k m events) = Dict.keys events).
    { rewrite DictFacts.keys_set. now rewrite E. }
    clear IH E. revert Hk.
    generalize (Dict.set k m events) as events'. revert events.
    induction msgs as [|m' msgs IH']; intros events events' Hk; simpl; [exact Hk|].
    assert (Hmem : Dict.mem (id m') events' = Dict.mem (id m') events).
    { destruct (Dict.mem (id m') events') eqn:E1, (Dict.mem (id m') events) eqn:E2;
        try reflexivity.
      - apply DictFacts.mem_keys in E1. rewrite Hk in E1.
        apply DictFacts.mem_keys in E1. congruence.
      - apply DictFacts.mem_keys in E2. rewrite <- Hk in E2.
        apply DictFacts.mem_keys in E2. congruence. }
    rewrite Hmem. destruct (Dict.mem (id m') events) eqn:E2; apply IH'.
    + exact Hk.
    + rewrite !DictFacts.keys_set, Hmem, E2. now rewrite Hk.
  - apply IH.
Qed.

Lemma drain_events_NoDup (msgs : list Event) :
  forall events, NoDup (Dict.keys events) ->
                 NoDup (Dict.keys (drain_events msgs events)).
Proof.
  unfold drain_events.
  induction msgs as [|m msgs IH]; intros events Hnd; simpl; [exact Hnd|].
  apply IH, DictFacts.NoDup_keys_set, Hnd.
Qed.

Lemma drain_events_identical (msgs : list Event) :
  forall events,
    (forall e1 e2, In e1 msgs -> In e2 msgs -> id e1 = id e2 -> e1 = e2) ->
    (forall e v, In e msgs -> Dict.get (id e) events = Some v -> v = e) ->
    drain_events msgs events = drain_first_seen msgs events.
Proof.
  unfold drain_events, drain_first_seen.
  induction msgs as [|m msgs IH]; intros events Hsame Hold; simpl; [reflexivity|].
  unfold Dict.mem. destruct (Dict.get (id m) events) as [v|] eqn:E.
  - assert (v = m) by (apply Hold; [now left | exact E]). subst v.
    rewrite DictFacts.set_same_value by exact E.
    apply IH.
    + intros e1 e2 H1 H2. apply Hsame; now right.
    + intros e v H. apply Hold. now right.
  - apply IH.
    + intros e1 e2 H1 H2. apply Hsame; now right.
    + intros e v Hin Hget.
      destruct (String.eqb_spec (id m) (id e)) as [Heq|Hne].
      * rewrite Heq, DictFacts.get_set_same in Hget. injection Hget as <-.
        apply Hsame; [now left | now right | exact Heq].
      * rewrite DictFacts.get_set_other in Hget by exact Hne.
        apply Hold with (v := v); [now right | exact Hget].
Qed.

End Drain.

Lemma drain_first_seen_get (msgs : list Event) :
  forall (events : Dict.t Event) (k : string),
    Dict.get k (drain_first_seen msgs events) =
    match Dict.get k events with
    | Some v => Some v
    | None => find (fun e => String.eqb (id e) k) msgs
    end.
Proof.
  unfold drain_first_seen.
  induction msgs as [|m msgs IH]; intros events k; simpl.
  - now destruct (Dict.get k events).
  - unfold Dict.mem. destruct (Dict.get (id m) events) as [v|] eqn:Hm.
    + rewrite IH. destruct (Dict.get k events) eqn:Hk; [reflexivity|].
      destruct (String.eqb_spec (id m) k) as [Heq|Hne]; [congruence | reflexivity].
    + rewrite IH. destruct (String.eqb_spec (id m) k) as [<-|Hne].
      * now rewrite DictFacts.get_set_same, Hm.
      * now rewrite DictFacts.get_set_other.
Qed.

(** C3: when the arrivals under one id are the same event (an id is
    computed from the event, so duplicates across relays are identical),
    the map drained from any sequence of event messages is the one that
    keeping the first-seen event for each id gives: it has one entry per
    id, the entry of an id is its first arrival, and a later arrival whose
    id is already present leaves the map as it is. *)
Theorem drain_events_keeps_first_seen (msgs : list Event) :
  (forall e1 e2, In e1 msgs -> In e2 msgs -> id e1 = id e2 -> e1 = e2) ->
  drain_events msgs Dict.empty = drain_first_seen msgs Dict.empty /\
  NoDup (Dict.keys (drain_events msgs Dict.empty)) /\
  (forall k, Dict.get k (drain_events msgs Dict.empty) =
             find (fun e => String.eqb (id e) k) msgs) /\
  (forall before e after,
      msgs = (before ++ e :: after)%list ->
      (exists e', In e' before /\ id e' = id e) ->
      drain_events (before ++ [e]) Dict.empty = drain_events before Dict.empty).
Proof.
  intros Hsame.
  assert (Heq : drain_events msgs Dict.empty = drain_first_seen msgs Dict.empty).
  { apply drain_events_identical; [exact Hsame|]. intros e v _ H. discriminate H. }
  split; [exact Heq|]. split; [apply drain_events_NoDup; constructor|]. split.
  - intros k. rewrite Heq, drain_first_seen_get. reflexivity.
  - intros before e after Hmsgs (e' & Hin' & Hid).
    unfold drain_events. rewrite fold_left_app. simpl.
    apply DictFacts.set_same_value.
    fold (drain_events before Dict.empty). rewrite drain_events_get.
    unfold last_arrival.
    destruct (find (fun event => String.eqb (id event) (id e)) (rev before))
      as [x|] eqn:Hfind.
    + apply find_some in Hfind. destruct Hfind as [Hx Hidx].
      apply String.eqb_eq in Hidx. apply in_rev in Hx. f_equal.
      apply Hsame; [| |exact Hidx]; rewrite Hmsgs; apply in_or_app.
      * now left.
      * right. now left.
    + exfalso. apply find_none with (x := e') in Hfind; [|now apply in_rev in Hin'].
      apply String.eqb_neq in Hfind. contradiction.
Qed.

Lemma drain_events_keeps_first_seen_witness :
  (forall e1 e2, In e1 [arrival_1; arrival_other; arrival_1] ->
                 In e2 [arrival_1; arrival_other; arrival_1] ->
                 id e1 = id e2 -> e1 = e2) /\
  drain_events [arrival_1; arrival_other; arrival_1] Dict.empty =
    [("e1", arrival_1); ("e2", arrival_other)].
Proof.
  assert (H : forall e1 e2, In e1 [arrival_1; arrival_other; arrival_1] ->
                            In e2 [arrival_1; arrival_other; arrival_1] ->
                            id e1 = id e2 -> e1 = e2).
  { simpl. intros e1 e2 [<-|[<-|[<-|[]]]] [<-|[<-|[<-|[]]]] Hid;
      try reflexivity; discriminate Hid. }
  split; [exact H|].
  exact (proj1 (drain_events_keeps_first_seen [arrival_1; arrival_other; arrival_1] H)).
Defined.

(** ** The quorum loop of [get_notes] *)
Section Quorum.

Variable f : Filters.

Lemma after_rounds_step (k : nat) (r : Round) (w : World) :
  after_rounds f k (snd (get_notes_round f r w)) = after_rounds f (S k) w.
Proof.
  unfold after_rounds, get_notes_round; simpl. f_equal.
  - lia.
  - destruct (network w); simpl; [now destruct k | reflexivity].
  - now rewrite <- app_assoc.
Qed.

Lemma after_rounds_0 (w : World) : after_rounds f 0 w = w.
Proof.
  destruct w; unfold after_rounds; simpl. f_equal.
  - lia.
  - apply app_nil_r.
Qed.

Lemma get_notes_loop_done (n e : nat) (events : Dict.t Event)
      (rounds : list Round) (w : World) :
  below_quorum e n = false ->
  get_notes_loop f n e events rounds w = Ok (events, w).
Proof.
  intros H. destruct rounds; simpl; now rewrite H.
Qed.

Lemma get_notes_loop_until (n : nat) (before : list Round) :
  forall (e : nat) (events : Dict.t Event) (r : Round) (after : list Round) (w : World),
    below_quorum e n = true ->
    Forall (fun r' => below_quorum (eose r') n = true) before ->
    below_quorum (eose r) n = false ->
    get_notes_loop f n e events (before ++ r :: after)%list w =
    Ok (drain_events (event_msgs r) Dict.empty,
        after_rounds f (S (List.length before)) w).
Proof.
  induction before as [|b before IH]; intros e events r after w He Hb Hr.
  - simpl. rewrite He.
    rewrite get_notes_loop_done by exact Hr.
    change (after_rounds f 1 w) with (after_rounds f 1 w).
    rewrite <- (after_rounds_step 0 r w), after_rounds_0. reflexivity.
  - inversion Hb as [|? ? Hb1 Hb2]; subst.
    simpl app. simpl get_notes_loop. rewrite He.
    rewrite (IH (eose b) _ r after _ Hb1 Hb2 Hr).
    f_equal. f_equal. apply (after_rounds_step (S (List.length before)) b w).
Qed.

Lemma get_notes_loop_diverges (n : nat) (rounds : list Round) :
  forall (e : nat) (events : Dict.t Event) (w : World),
    below_quorum e n = true ->
    Forall (fun r' => below_quorum (eose r') n = true) rounds ->
    get_notes_loop f n e events rounds w = Diverge.
Proof.
  induction rounds as [|r rounds IH]; intros e events w He Hr; simpl; rewrite He.
  - reflexivity.
  - inversion Hr; subst. now apply IH.
Qed.

Lemma subscription_ids_rounds (start k : nat) :
  subscription_ids (flat_map (round_actions f) (seq start k)) = seq start k.
Proof.
  revert start. induction k as [|k IH]; intros start; simpl; [reflexivity|].
  f_equal. apply IH.
Qed.

End Quorum.

(** C4: with at least one relay the loop of [get_notes] repeats exactly
    until a round's EOSE count reaches half the relay count: if the rounds
    [before] all stay below the quorum and round [r] reaches it, the
    result is the map rebuilt from [r] alone, after [length before + 1]
    passes, each with a fresh subscription token; and while every supplied
    round stays below the quorum the loop has not ended. *)
Theorem get_notes_repeats_until_quorum (f : Filters) (w : World) :
  (0 < List.length (relays w))%nat ->
  (forall before r after,
      network w = (before ++ r :: after)%list ->
      Forall (fun r' => (2 * eose r' < List.length (relays w))%nat) before ->
      (2 * eose r >= List.length (relays w))%nat ->
      let k := S (List.length before) in
      get_notes f w = Ok (drain_events (event_msgs r) Dict.empty, after_rounds f k w) /\
      iterations_between w (after_rounds f k w) = k /\
      NoDup (skipn (List.length (subscription_ids (trace w)))
                   (subscription_ids (trace (after_rounds f k w)))) /\
      network (after_rounds f k w) = after) /\
  (Forall (fun r' => (2 * eose r' < List.length (relays w))%nat) (network w) ->
   get_notes f w = Diverge).
Proof.
  intros Hn.
  assert (H0 : below_quorum 0 (List.length (relays w)) = true).
  { unfold below_quorum. apply Nat.ltb_lt. lia. }
  assert (Hbelow : forall l,
             Forall (fun r' => (2 * eose r' < List.length (relays w))%nat) l ->
             Forall (fun r' => below_quorum (eose r') (List.length (relays w)) = true) l).
  { intros l. apply Forall_impl. intros a Ha. unfold below_quorum. now apply Nat.ltb_lt. }
  split.
  - intros before r after Hnet Hb Hr k.
    assert (Hids : subscription_ids (trace (after_rounds f k w)) =
                   (subscription_ids (trace w) ++ seq (uuid_clock w) k)%list).
    { unfold after_rounds; cbn [trace]. unfold subscription_ids.
      rewrite flat_map_app. f_equal.
      exact (subscription_ids_rounds f (uuid_clock w) k). }
    split; [|split; [|split]].
    + unfold get_notes. rewrite Hnet.
      apply get_notes_loop_until; [exact H0 | now apply Hbelow |].
      unfold below_quorum. apply Nat.ltb_ge. lia.
    + unfold iterations_between. rewrite Hids, length_app, length_seq. lia.
    + rewrite Hids, skipn_app, Nat.sub_diag, skipn_all.
      exact (seq_NoDup k (uuid_clock w)).
    + unfold after_rounds; cbn [network]. rewrite Hnet. unfold k.
      clear. induction before as [|b before IH]; [reflexivity | exact IH].
  - intros Hall. unfold get_notes.
    apply get_notes_loop_diverges; [exact H0 | now apply Hbelow].
Qed.

(** With four active relays of which two signal EOSE in every round, the
    loop ends after exactly one pass. *)
Lemma get_notes_repeats_until_quorum_witness :
  (0 < List.length (relays four_relays))%nat /\
  get_notes no_filters four_relays =
    Ok (drain_events [arrival_1] Dict.empty, after_rounds no_filters 1 four_relays) /\
  iterations_between four_relays (after_rounds no_filters 1 four_relays) = 1%nat.
Proof.
  assert (Hn : (0 < List.length (relays four_relays))%nat) by (simpl; lia).
  split; [exact Hn|].
  destruct (proj1 (get_notes_repeats_until_quorum no_filters four_relays Hn)
                  [] (mkRound 2 [arrival_1])
                  [mkRound 2 [arrival_1]; mkRound 2 [arrival_1]])
    as (H1 & H2 & _).
  - reflexivity.
  - constructor.
  - simpl. lia.
  - split; [exact H1 | exact H2].
Defined.

(** C8, as stated, fails: with no active relay the loop is not entered
    even once, so "after one empty iteration" does not hold of the run. *)
Lemma get_notes_no_relays_not_one_iteration :
  ~ (forall (f : Filters) (w : World),
        relays w = [] ->
        exists w', get_notes f w = Ok (Dict.empty, w') /\
                   iterations_between w w' = 1%nat).
Proof.
  intros H. destruct (H no_filters no_relays eq_refl) as (w' & Hrun & Hit).
  vm_compute in Hrun. injection Hrun as <-.
  vm_compute in Hit. discriminate Hit.
Qed.

(** C8 (amended): with no active relay the quorum threshold is 0, the
    loop condition is false on entry, and [get_notes] returns the empty
    mapping at once: nothing is raised, no round of the network is waited
    for, no subscription is sent and the world is left as it was. *)
Theorem get_notes_no_relays (f : Filters) (w : World) :
  relays w = [] ->
  get_notes f w = Ok (Dict.empty, w) /\ iterations_between w w = 0%nat.
Proof.
  intros Hrel. split.
  - unfold get_notes. rewrite Hrel. simpl List.length.
    now apply get_notes_loop_done.
  - unfold iterations_between. lia.
Qed.

Lemma get_notes_no_relays_witness :
  relays no_relays = [] /\
  get_notes no_filters no_relays = Ok (Dict.empty, no_relays) /\
  iterations_between no_relays no_relays = 0%nat.
Proof.
  split; [reflexivity|].
  apply (get_notes_no_relays no_filters no_relays). reflexivity.
Defined.

(** ** The latest event per author *)
Section Latest.

Lemma nonempty_content (s : string) :
  (0 <? String.length s)%nat = true <-> s <> "".
Proof.
  destruct s; simpl; split; intros H; try congruence; try reflexivity.
  discriminate H.
Qed.

Lemma latest_inv_nil : latest_inv [] Dict.empty.
Proof.
  split; [intros a rep H; discriminate H | intros a _ e []].
Qed.

Lemma latest_step_cases (rpu : Dict.t Event) (e : Event) :
  (latest_step rpu e = Dict.set (pubkey e) e rpu /\ content e <> "" /\
   (Dict.get (pubkey e) rpu = None \/
    exists cur, Dict.get (pubkey e) rpu = Some cur /\ created_at cur < created_at e)) \/
  (latest_step rpu e = rpu /\
   (content e = "" \/
    exists cur, Dict.get (pubkey e) rpu = Some cur /\ created_at e <= created_at cur)).
Proof.
  unfold latest_step.
  destruct (0 <? String.length (content e))%nat eqn:Hc.
  - apply nonempty_content in Hc.
    destruct (Dict.get (pubkey e) rpu) as [cur|] eqn:Hg; simpl.
    + destruct (Z.ltb_spec (created_at cur) (created_at e)).
      * left. repeat split; auto. right. now exists cur.
      * right. split; [reflexivity|]. right. exists cur. split; [reflexivity | lia].
    + left. repeat split; auto.
  - right. rewrite andb_false_r. split; [reflexivity|]. left.
    destruct (content e); [reflexivity | discriminate Hc].
Qed.

Lemma latest_inv_step (done : list Event) (rpu : Dict.t Event) (e : Event) :
  latest_inv done rpu -> latest_inv (done ++ [e])%list (latest_step rpu e).
Proof.
  intros [Hsome Hnone].
  destruct (latest_step_cases rpu e) as [(-> & Hc & Hcur) | (-> & Hskip)]; split.
  - intros a rep Hget.
    destruct (String.eqb_spec (pubkey e) a) as [<-|Hne].
    + rewrite DictFacts.get_set_same in Hget. injection Hget as <-.
      exists done, []. repeat split; auto.
      * intros e' Hin Hpk Hne'.
        destruct Hcur as [Hn | (cur & Hg & Hlt)].
        -- exfalso. apply Hne'. now apply (Hnone _ Hn).
        -- destruct (Hsome _ _ Hg) as (before & after & -> & _ & _ & Hb & Ha).
           apply in_app_or in Hin. destruct Hin as [Hin|[<-|Hin]].
           ++ specialize (Hb _ Hin Hpk Hne'). lia.
           ++ exact Hlt.
           ++ specialize (Ha _ Hin Hpk Hne'). lia.
      * intros e' [].
    + rewrite DictFacts.get_set_other in Hget by exact Hne.
      destruct (Hsome _ _ Hget) as (before & after & -> & Hpk & Hcr & Hb & Ha).
      exists before, (after ++ [e])%list. repeat split; auto.
      * now rewrite <- app_assoc.
      * intros e' Hin Hpk' Hne'. apply in_app_or in Hin.
        destruct Hin as [Hin|[<-|[]]]; [now apply Ha | contradiction].
  - intros a Hget e' Hin Hpk.
    destruct (String.eqb_spec (pubkey e) a) as [<-|Hne].
    + now rewrite DictFacts.get_set_same in Hget.
    + rewrite DictFacts.get_set_other in Hget by exact Hne.
      apply in_app_or in Hin. destruct Hin as [Hin|[<-|[]]].
      * now apply (Hnone _ Hget).
      * contradiction.
  - intros a rep Hget.
    destruct (Hsome _ _ Hget) as (before & after & -> & Hpk & Hcr & Hb & Ha).
    exists before, (after ++ [e])%list. repeat split; auto.
    + now rewrite <- app_assoc.
    + intros e' Hin Hpk' Hne'. apply in_app_or in Hin.
      destruct Hin as [Hin|[<-|[]]]; [now apply Ha|].
      destruct Hskip as [Hemp | (cur & Hg & Hle)]; [contradiction|].
      rewrite Hpk' in Hg. rewrite Hg in Hget. injection Hget as <-. exact Hle.
  - intros a Hget e' Hin Hpk.
    apply in_app_or in Hin. destruct Hin as [Hin|[<-|[]]].
    + now apply (Hnone _ Hget).
    + destruct Hskip as [Hemp | (cur & Hg & _)]; [exact Hemp|].
      rewrite Hpk in Hg. congruence.
Qed.

Lemma latest_inv_fold (l : list Event) :
  forall done rpu,
    latest_inv done rpu -> latest_inv (done ++ l)%list (fold_left latest_step l rpu).
Proof.
  induction l as [|e l IH]; intros done rpu Hinv; simpl.
  - now rewrite app_nil_r.
  - replace (done ++ e :: l)%list with ((done ++ [e]) ++ l)%list
      by (now rewrite <- app_assoc).
    apply IH, latest_inv_step, Hinv.
Qed.

Lemma latest_per_author_inv (events : Dict.t Event) :
  latest_inv (Dict.values events) (latest_per_author events).
Proof.
  apply (@latest_inv_fold (Dict.values events) [] Dict.empty latest_inv_nil).
Qed.

Lemma latest_fold_NoDup (l : list Event) :
  forall rpu, NoDup (Dict.keys rpu) -> NoDup (Dict.keys (fold_left latest_step l rpu)).
Proof.
  induction l as [|e l IH]; intros rpu Hnd; simpl; [exact Hnd|].
  apply IH. unfold latest_step.
  destruct (_ && _); [now apply DictFacts.NoDup_keys_set | exact Hnd].
Qed.

End Latest.

(** C5: in the latest-event loop an author's representative is replaced
    only by an event of that author with strictly greater [created_at] and
    non-empty content; hence the resolved representative has non-empty
    content, every non-empty event of the author seen before it is
    strictly older and none seen after it is newer (ties keep the
    first-seen event).  With events at 100 and 200, both non-empty, the
    representative is the one at 200; if the one at 200 has empty content
    the one at 100 stays. *)
Theorem latest_per_author_representative :
  (forall (rpu : Dict.t Event) (e : Event) (a : string) (r : Event),
      Dict.get a rpu = Some r ->
      Dict.get a (latest_step rpu e) = Some r \/
      (Dict.get a (latest_step rpu e) = Some e /\ pubkey e = a /\
       created_at r < created_at e /\ content e <> "")) /\
  (forall (events : Dict.t Event) (a : string) (rep : Event),
      Dict.get a (latest_per_author events) = Some rep ->
      exists before after,
        Dict.values events = (before ++ rep :: after)%list /\
        pubkey rep = a /\ content rep <> "" /\
        (forall e, In e before -> pubkey e = a -> content e <> "" ->
                   created_at e < created_at rep) /\
        (forall e, In e after -> pubkey e = a -> content e <> "" ->
                   created_at e <= created_at rep)) /\
  latest_per_author [("a", bob_100); ("b", bob_200)] = [("bob", bob_200)] /\
  latest_per_author [("b", bob_200); ("a", bob_100)] = [("bob", bob_200)] /\
  latest_per_author [("a", bob_100); ("b", bob_200_empty)] = [("bob", bob_100)] /\
  latest_per_author [("a", bob_100); ("c", bob_100_again)] = [("bob", bob_100)].
Proof.
  split; [|split; [|repeat split]].
  - intros rpu e a r Hget.
    destruct (latest_step_cases rpu e) as [(-> & Hc & Hcur) | (-> & _)];
      [|now left].
    destruct (String.eqb_spec (pubkey e) a) as [<-|Hne].
    + right. rewrite DictFacts.get_set_same. repeat split; auto.
      destruct Hcur as [Hn | (cur & Hg & Hlt)]; congruence.
    + left. now rewrite DictFacts.get_set_other.
  - intros events a rep Hget.
    exact (proj1 (latest_per_author_inv events) a rep Hget).
Qed.

Lemma latest_per_author_representative_witness :
  Dict.get "bob" (latest_per_author [("a", bob_100); ("b", bob_200)]) = Some bob_200 /\
  exists before after,
    Dict.values [("a", bob_100); ("b", bob_200)] = (before ++ bob_200 :: after)%list /\
    pubkey bob_200 = "bob" /\ content bob_200 <> "" /\
    (forall e, In e before -> pubkey e = "bob" -> content e <> "" ->
               created_at e < created_at bob_200) /\
    (forall e, In e after -> pubkey e = "bob" -> content e <> "" ->
               created_at e <= created_at bob_200).
Proof.
  assert (H : Dict.get "bob" (latest_per_author [("a", bob_100); ("b", bob_200)])
              = Some bob_200) by reflexivity.
  split; [exact H|].
  exact (proj1 (proj2 latest_per_author_representative)
               [("a", bob_100); ("b", bob_200)] "bob" bob_200 H).
Defined.

(** ** Notifications *)
Section Notifications.

Variable datetime_in_bounds : Z -> bool.

Lemma to_datetime_rows (kept : list Event) :
  map_outcome (fun r => match Dict.get "created_at" r with
                        | Some c => c' <- to_datetime datetime_in_bounds c ;;
                                    Ok (Dict.set "date" c' r)
                        | None => Ok r
                        end) (map event_dict kept) =
  if forallb (fun e => datetime_in_bounds (created_at e)) kept
  then Ok (map (fun e => (event_dict e ++ [("date", CInt (created_at e))])%list) kept)
  else Raise OutOfBoundsDatetime.
Proof.
  induction kept as [|e kept IH]; [reflexivity|].
  cbn [map map_outcome forallb]. rewrite IH.
  change (Dict.get "created_at" (event_dict e)) with (Some (CInt (created_at e))).
  cbn [to_datetime]. destruct (datetime_in_bounds (created_at e)); [|reflexivity].
  cbn [bind andb]. destruct (forallb _ kept); reflexivity.
Qed.

Lemma dt_time_rows (kept : list Event) :
  map_outcome (fun r => match Dict.get "date" r with
                        | Some c => c' <- dt_time c ;; Ok (Dict.set "time" c' r)
                        | None => Ok r
                        end)
              (map (fun e => (event_dict e ++ [("date", CInt (created_at e))])%list) kept) =
  Ok (map notification_row kept).
Proof.
  induction kept as [|e kept IH]; [reflexivity|].
  cbn [map map_outcome]. rewrite IH. reflexivity.
Qed.

Lemma derive_date_column (cols : list string) (kept : list Event) :
  existsb (String.eqb "created_at") cols = true ->
  existsb (String.eqb "date") cols = false ->
  derive_column "created_at" "date" (to_datetime datetime_in_bounds)
                {| columns := cols; records := map event_dict kept |} =
  if forallb (fun e => datetime_in_bounds (created_at e)) kept
  then Ok {| columns := (cols ++ ["date"])%list;
             records := map (fun e => (event_dict e ++
                                       [("date", CInt (created_at e))])%list) kept |}
  else Raise OutOfBoundsDatetime.
Proof.
  intros Hsrc Hdst. unfold derive_column. cbn [columns records].
  rewrite Hsrc, Hdst, to_datetime_rows.
  destruct (forallb _ kept); reflexivity.
Qed.

Lemma derive_time_column (cols : list string) (kept : list Event) :
  existsb (String.eqb "date") cols = true ->
  existsb (String.eqb "time") cols = false ->
  derive_column "date" "time" dt_time
                {| columns := cols;
                   records := map (fun e => (event_dict e ++
                                             [("date", CInt (created_at e))])%list)
                                  kept |} =
  Ok {| columns := (cols ++ ["time"])%list; records := map notification_row kept |}.
Proof.
  intros Hsrc Hdst. unfold derive_column. cbn [columns records].
  rewrite Hsrc, Hdst, dt_time_rows. reflexivity.
Qed.

Lemma notifications_frame_rows (npub_hex : string) (events : Dict.t Event) :
  notifications_frame datetime_in_bounds npub_hex events =
  match filter (fun event => negb (String.eqb (pubkey event) npub_hex))
               (Dict.values events) with
  | [] => Raise (KeyError "created_at")
  | kept =>
      if forallb (fun e => datetime_in_bounds (created_at e)) kept
      then Ok {| columns := notification_columns;
                 records := map notification_row kept |}
      else Raise OutOfBoundsDatetime
  end.
Proof.
  unfold notifications_frame, notification_data, DataFrame_of_records.
  destruct (filter _ (Dict.values events)) as [|e kept]; [reflexivity|].
  change (match map event_dict (e :: kept) with
          | [] => []
          | d :: _ => Dict.keys d
          end) with (Dict.keys (event_dict e)).
  rewrite derive_date_column by reflexivity.
  destruct (forallb _ (e :: kept)); [|reflexivity].
  cbn [bind]. rewrite derive_time_column by reflexivity. reflexivity.
Qed.

Lemma notification_row_pubkey (e : Event) :
  Dict.get "pubkey" (notification_row e) = Some (CStr (pubkey e)).
Proof. reflexivity. Qed.

End Notifications.

(** C10: whenever [get_notifications] returns a frame, its rows are the
    aggregated events whose author differs from the queried identity, in
    order, and no row carries the identity's own public key; a frame is
    returned when an event of another author was aggregated and
    [pd.to_datetime] accepts the [created_at] of every such event, and
    [OutOfBoundsDatetime] is raised when it rejects one of them. *)
Theorem get_notifications_excludes_own
    (from_npub : string -> Outcome string) (datetime_in_bounds : Z -> bool)
    (npub npub_hex : string) (events : Dict.t Event) (w w' : World) :
  hex_from_npub from_npub npub = Ok npub_hex ->
  get_notes (notification_filters npub_hex) w = Ok (events, w') ->
  let others := filter (fun event => negb (String.eqb (pubkey event) npub_hex))
                       (Dict.values events) in
  (forall df w'',
      get_notifications from_npub datetime_in_bounds npub w = Ok (df, w'') ->
      w'' = w' /\
      records df = map notification_row others /\
      Forall (fun row => Dict.get "pubkey" row <> Some (CStr npub_hex)) (records df) /\
      (forall e, In e (Dict.values events) ->
                 (In (notification_row e) (records df) <-> pubkey e <> npub_hex))) /\
  ((exists e, In e (Dict.values events) /\ pubkey e <> npub_hex) ->
   (forall e, In e others -> datetime_in_bounds (created_at e) = true) ->
   exists df, get_notifications from_npub datetime_in_bounds npub w = Ok (df, w')) /\
  ((exists e, In e others /\ datetime_in_bounds (created_at e) = false) ->
   get_notifications from_npub datetime_in_bounds npub w = Raise OutOfBoundsDatetime).
Proof.
  intros Hhex Hnotes others.
  assert (Hrun : get_notifications from_npub datetime_in_bounds npub w =
                 df <- notifications_frame datetime_in_bounds npub_hex events ;;
                 Ok (df, w')).
  { unfold get_notifications. rewrite Hhex. simpl.
    unfold notification_filters in Hnotes. rewrite Hnotes. reflexivity. }
  rewrite Hrun, notifications_frame_rows. fold others.
  assert (Hothers : forall e, In e others <->
                              In e (Dict.values events) /\ pubkey e <> npub_hex).
  { intros e. unfold others. rewrite filter_In, negb_true_iff.
    destruct (String.eqb_spec (pubkey e) npub_hex); intuition congruence. }
  clearbody others.
  split; [|split].
  - intros df w'' Hok. destruct others as [|e0 kept]; [discriminate Hok|].
    cbv zeta in Hok.
    destruct (forallb _ (e0 :: kept)); [|discriminate Hok].
    cbn [bind] in Hok. injection Hok as <- <-. cbn [records].
    split; [reflexivity|]. split; [reflexivity|]. split.
    + apply Forall_forall. intros row Hin.
      change (In row (map notification_row (e0 :: kept))) in Hin.
      apply in_map_iff in Hin.
      destruct Hin as (e & <- & Hin). rewrite notification_row_pubkey.
      apply Hothers in Hin. intros Heq. injection Heq as Heq. tauto.
    + intros e Hin. split.
      * intros Hrow.
        change (In (notification_row e) (map notification_row (e0 :: kept))) in Hrow.
        apply in_map_iff in Hrow. destruct Hrow as (e' & Heq & Hin').
        apply Hothers in Hin'.
        assert (Hpk : Dict.get "pubkey" (notification_row e') =
                      Dict.get "pubkey" (notification_row e)) by now rewrite Heq.
        rewrite !notification_row_pubkey in Hpk. injection Hpk as Hpk.
        rewrite <- Hpk. tauto.
      * intros Hne.
        change (In (notification_row e) (map notification_row (e0 :: kept))).
        apply in_map. apply Hothers. tauto.
  - intros (e & Hin & Hne) Hbounds.
    assert (He : In e others) by (apply Hothers; tauto).
    assert (Hall : forallb (fun e => datetime_in_bounds (created_at e)) others = true).
    { apply forallb_forall. exact Hbounds. }
    destruct others as [|e0 kept]; [destruct He|].
    cbv zeta. rewrite Hall. cbn [bind]. eexists. reflexivity.
  - intros (e & He & Hout).
    assert (Hall : forallb (fun e => datetime_in_bounds (created_at e)) others = false).
    { apply not_true_is_false. intros Hall. rewrite forallb_forall in Hall.
      rewrite (Hall e He) in Hout. discriminate Hout. }
    destruct others as [|e0 kept]; [destruct He|].
    cbv zeta. rewrite Hall. reflexivity.
Qed.

Lemma get_notifications_excludes_own_witness :
  hex_from_npub npub_stub "abc" = Ok "abc" /\
  get_notes (notification_filters "abc") busy_relay =
    Ok ([("n", dave_note); ("o", own_note)],
        after_rounds (notification_filters "abc") 1 busy_relay) /\
  exists df, get_notifications npub_stub in_bounds_stub "abc" busy_relay =
             Ok (df, after_rounds (notification_filters "abc") 1 busy_relay) /\
             records df = [notification_row dave_note].
Proof.
  assert (Hhex : hex_from_npub npub_stub "abc" = Ok "abc") by reflexivity.
  assert (Hnotes : get_notes (notification_filters "abc") busy_relay =
                   Ok ([("n", dave_note); ("o", own_note)],
                       after_rounds (notification_filters "abc") 1 busy_relay))
    by reflexivity.
  split; [exact Hhex|]. split; [exact Hnotes|].
  destruct (@get_notifications_excludes_own npub_stub in_bounds_stub "abc" "abc" _
              busy_relay _ Hhex Hnotes) as (Hall & Hex & _).
  destruct Hex as [df Hdf].
  - exists dave_note. split; [simpl; tauto | discriminate].
  - simpl. intros e [<-|[]]. reflexivity.
  - exists df. split; [exact Hdf|].
    exact (proj1 (proj2 (Hall df _ Hdf))).
Defined.

(** A note of another author dated beyond the range of timestamps. *)
Example get_notifications_out_of_bounds :
  get_notifications npub_stub in_bounds_stub "abc" far_relay = Raise OutOfBoundsDatetime.
Proof. reflexivity. Qed.

(** ** Decoding relay lists *)
Section Decode.

Variable json_loads : string -> option PyValue.

(** The keys a representative event decodes to. *)
Lemma decode_content_cases (e : Event) :
  (exists items, json_loads (content e) = Some (PyDict items) /\
                 decode_content json_loads e = Ok (map fst items)) \/
  (exists exn, decode_content json_loads e = Raise exn).
Proof.
  unfold decode_content. destruct (json_loads (content e)) as [v|].
  - destruct v; simpl; eauto.
  - eauto.
Qed.

Lemma decode_relays_failure (l : list (string * Event)) :
  forall output,
    (exists a rep exn, In (a, rep) l /\ decode_content json_loads rep = Raise exn) ->
    exists exn, decode_relays json_loads l output = Raise exn.
Proof.
  induction l as [|[pub e] l IH]; intros output (a & rep & exn & Hin & Hbad).
  - destruct Hin.
  - simpl. destruct (decode_content_cases e) as [(items & _ & Hd) | (exn' & Hd)];
      rewrite Hd; simpl.
    + apply IH. destruct Hin as [Heq|Hin].
      * injection Heq as <- <-. congruence.
      * eauto.
    + eauto.
Qed.

Lemma decode_relays_success (l : list (string * Event)) :
  forall output,
    NoDup (Dict.keys output ++ Dict.keys l) ->
    (forall a rep, In (a, rep) l ->
                   exists items, json_loads (content rep) = Some (PyDict items)) ->
    decode_relays json_loads l output =
    Ok (output ++ map (fun '(a, rep) => (a, decoded_keys json_loads rep)) l)%list.
Proof.
  induction l as [|[pub e] l IH]; intros output Hnd Hok; simpl.
  - now rewrite app_nil_r.
  - destruct (Hok pub e (or_introl eq_refl)) as (items & Hitems).
    unfold decode_content, decoded_keys at 1. rewrite Hitems. simpl.
    assert (Habs : Dict.get pub output = None).
    { apply DictFacts.get_None_keys. intros Hin.
      apply NoDup_remove_2 in Hnd. apply Hnd.
      apply in_or_app. now left. }
    rewrite DictFacts.set_absent by exact Habs.
    rewrite IH.
    + now rewrite <- app_assoc.
    + unfold Dict.keys in *. rewrite map_app. simpl.
      rewrite <- app_assoc. exact Hnd.
    + intros a rep Hin. apply (Hok a rep). now right.
Qed.

End Decode.

(** C7 at the failing input: the event of [carol] has a content that is
    not valid JSON.  The resolution raises [JSONDecodeError] and returns
    no relay list at all, although without that event the remaining
    events resolve to the relay list of [bob]. *)
Lemma relays_of_events_aborts_on_invalid_json :
  json_stub (content carol_bad) = None /\
  relays_of_events json_stub [("a", bob_100); ("x", carol_bad)] = Raise JSONDecodeError /\
  relays_of_events json_stub (dict_remove "x" [("a", bob_100); ("x", carol_bad)]) =
    Ok [("bob", [])].
Proof.
  repeat split; reflexivity.
Qed.

(** What the resolution does with the decoder's answers: it decodes the
    representative event of every author (the latest one with non-empty
    content).  If the content of one representative is not a JSON object,
    the whole resolution raises and no relay list is returned; if every
    representative decodes to an object, the resolution returns each
    author's keys, in order of the authors. *)
Theorem relays_of_events_decodes_representatives
    (json_loads : string -> option PyValue) (events : Dict.t Event) :
  ((exists a rep exn,
       Dict.get a (latest_per_author events) = Some rep /\
       decode_content json_loads rep = Raise exn) ->
   exists exn, relays_of_events json_loads events = Raise exn) /\
  ((forall a rep,
       Dict.get a (latest_per_author events) = Some rep ->
       exists items, json_loads (content rep) = Some (PyDict items)) ->
   relays_of_events json_loads events =
   Ok (map (fun '(a, rep) => (a, decoded_keys json_loads rep))
           (latest_per_author events))).
Proof.
  assert (Hnd : NoDup (Dict.keys (latest_per_author events))).
  { apply latest_fold_NoDup. constructor. }
  split.
  - intros (a & rep & exn & Hget & Hbad). unfold relays_of_events.
    apply decode_relays_failure. exists a, rep, exn.
    split; [now apply DictFacts.get_Some_In | exact Hbad].
  - intros Hok. unfold relays_of_events.
    rewrite decode_relays_success.
    + reflexivity.
    + exact Hnd.
    + intros a rep Hin. apply (Hok a rep).
      now apply DictFacts.In_get_NoDup.
Qed.

Lemma relays_of_events_decodes_representatives_witness :
  (exists a rep exn,
      Dict.get a (latest_per_author [("a", bob_100); ("x", carol_bad)]) = Some rep /\
      decode_content json_stub rep = Raise exn) /\
  (exists exn, relays_of_events json_stub [("a", bob_100); ("x", carol_bad)] = Raise exn) /\
  (forall a rep,
      Dict.get a (latest_per_author [("a", bob_100); ("b", bob_200_empty)]) = Some rep ->
      exists items, json_stub (content rep) = Some (PyDict items)) /\
  relays_of_events json_stub [("a", bob_100); ("b", bob_200_empty)] = Ok [("bob", [])].
Proof.
  assert (H1 : exists a rep exn,
             Dict.get a (latest_per_author [("a", bob_100); ("x", carol_bad)]) = Some rep /\
             decode_content json_stub rep = Raise exn).
  { exists "carol", carol_bad, JSONDecodeError. split; reflexivity. }
  assert (H2 : forall a rep,
             Dict.get a (latest_per_author [("a", bob_100); ("b", bob_200_empty)]) = Some rep ->
             exists items, json_stub (content rep) = Some (PyDict items)).
  { intros a rep.
    change (latest_per_author [("a", bob_100); ("b", bob_200_empty)])
      with [("bob", bob_100)].
    cbn [Dict.get]. destruct (String.eqb "bob" a); intros H;
      [injection H as <-; exists []; reflexivity | discriminate H]. }
  split; [exact H1|]. split.
  - exact (proj1 (relays_of_events_decodes_representatives json_stub
                    [("a", bob_100); ("x", carol_bad)]) H1).
  - split; [exact H2|].
    exact (proj2 (relays_of_events_decodes_representatives json_stub
                    [("a", bob_100); ("b", bob_200_empty)]) H2).
Defined.

(** ** Frames: sums, columns and sorting *)
Section FrameFacts.

Lemma row_sum_app (a b : Dict.t Z) :
  row_sum (a ++ b)%list = row_sum a + row_sum b.
Proof.
  unfold row_sum, Dict.values. induction a as [|[k v] a IH]; simpl; [reflexivity|].
  rewrite IH. lia.
Qed.

Lemma row_sum_nonneg (cells : Dict.t Z) :
  (forall f v, In (f, v) cells -> 0 <= v) -> 0 <= row_sum cells.
Proof.
  unfold row_sum, Dict.values. induction cells as [|[k v] cells IH]; intros H; simpl.
  - lia.
  - assert (0 <= v) by (apply (H k); now left).
    assert (0 <= fold_right Z.add 0 (map snd cells)).
    { apply IH. intros f v' Hin. apply (H f). now right. }
    lia.
Qed.

Lemma row_sum_positive (cells : Dict.t Z) (f : string) (v : Z) :
  (forall f' v', In (f', v') cells -> 0 <= v') ->
  In (f, v) cells -> 0 < v -> 0 < row_sum cells.
Proof.
  intros Hnn Hin Hv. apply in_split in Hin. destruct Hin as (l1 & l2 & ->).
  rewrite row_sum_app.
  assert (H1 : 0 <= row_sum l1).
  { apply row_sum_nonneg. intros f' v' Hi. apply (Hnn f'). apply in_or_app. now left. }
  assert (H2 : 0 <= row_sum l2).
  { apply row_sum_nonneg. intros f' v' Hi. apply (Hnn f'). apply in_or_app.
    right. now right. }
  change (row_sum ((f, v) :: l2)) with (v + row_sum l2). lia.
Qed.

Lemma existsb_eqb_In (x : string) (l : list string) :
  existsb (String.eqb x) l = true <-> In x l.
Proof.
  rewrite existsb_exists. split.
  - intros (y & Hin & Heq). apply String.eqb_eq in Heq. now subst.
  - intros Hin. exists x. split; [exact Hin | apply String.eqb_refl].
Qed.

Lemma keep_columns_In (dropped : list string) (cells : Dict.t Z) (f : string) (v : Z) :
  In (f, v) (keep_columns dropped cells) <-> In (f, v) cells /\ ~ In f dropped.
Proof.
  unfold keep_columns. rewrite filter_In, negb_true_iff. simpl.
  rewrite <- existsb_eqb_In. destruct (existsb (String.eqb f) dropped); intuition congruence.
Qed.

Lemma keep_columns_app (dropped dropped' : list string) (cells : Dict.t Z) :
  keep_columns dropped' (keep_columns dropped cells) =
  keep_columns (dropped' ++ dropped) cells.
Proof.
  unfold keep_columns. induction cells as [|[k v] cells IH]; simpl; [reflexivity|].
  rewrite existsb_app.
  destruct (existsb (String.eqb k) dropped) eqn:E1; simpl.
  - rewrite IH, orb_true_r. reflexivity.
  - rewrite orb_false_r.
    destruct (existsb (String.eqb k) dropped'); simpl; now rewrite IH.
Qed.

Lemma keep_columns_nil (cells : Dict.t Z) : keep_columns [] cells = cells.
Proof.
  unfold keep_columns. induction cells as [|c cells IH]; simpl; [reflexivity|].
  f_equal. exact IH.
Qed.

Lemma keep_columns_no_count (dropped : list string) (cells : Dict.t Z) :
  Dict.get "Count" cells = None ->
  Dict.get "Count" (keep_columns dropped cells) = None.
Proof.
  intros H. apply DictFacts.get_None_keys. intros Hin.
  apply DictFacts.get_None_keys in H. apply H.
  unfold Dict.keys in *. apply in_map_iff in Hin. destruct Hin as ([k v] & Hk & Hin).
  apply keep_columns_In in Hin. apply in_map_iff. exists (k, v). tauto.
Qed.

Lemma view_app (dropped : list string) (cells : Dict.t Z) :
  Dict.get "Count" cells = None ->
  view dropped cells =
  (keep_columns dropped cells ++ [("Count", row_sum (keep_columns dropped cells))])%list.
Proof.
  intros H. unfold view. apply DictFacts.set_absent.
  now apply keep_columns_no_count.
Qed.

Lemma view_count (dropped : list string) (cells : Dict.t Z) :
  Dict.get "Count" (view dropped cells) = Some (row_sum (keep_columns dropped cells)).
Proof.
  apply DictFacts.get_set_same.
Qed.

(** Dropping columns that include [Count] and summing anew gives the view
    under the larger set of dropped columns. *)
Lemma view_step (dropped ctd : list string) (cells : Dict.t Z) :
  Dict.get "Count" cells = None ->
  In "Count" ctd ->
  Dict.set "Count" (row_sum (keep_columns ctd (view dropped cells)))
           (keep_columns ctd (view dropped cells)) =
  view (ctd ++ dropped) cells.
Proof.
  intros Hc Hin.
  assert (Hk : keep_columns ctd (view dropped cells) = keep_columns (ctd ++ dropped) cells).
  { rewrite view_app by exact Hc. unfold keep_columns at 1.
    rewrite filter_app. fold (keep_columns ctd (keep_columns dropped cells)).
    rewrite keep_columns_app. cbn [filter fst].
    apply existsb_eqb_In in Hin. rewrite Hin. cbn [negb]. apply app_nil_r. }
  rewrite Hk. reflexivity.
Qed.

Lemma insert_desc_In (row x : string * Dict.t Z) (l : Frame Z) :
  In x (insert_desc row l) <-> x = row \/ In x l.
Proof.
  induction l as [|r l IH]; simpl.
  - intuition.
  - destruct (count_of (snd r) <? count_of (snd row)); simpl.
    + intuition.
    + rewrite IH. intuition.
Qed.

Lemma insert_desc_length (row : string * Dict.t Z) (l : Frame Z) :
  List.length (insert_desc row l) = S (List.length l).
Proof.
  induction l as [|r l IH]; simpl; [reflexivity|].
  destruct (count_of (snd r) <? count_of (snd row)); simpl; [reflexivity | now rewrite IH].
Qed.

Lemma insert_desc_sorted (row : string * Dict.t Z) (l : Frame Z) :
  sorted_desc l -> sorted_desc (insert_desc row l).
Proof.
  unfold sorted_desc. induction l as [|r l IH]; intros Hs; simpl.
  - constructor; constructor.
  - inversion Hs as [|? ? Hs' Hall]; subst.
    destruct (Z.ltb_spec (count_of (snd r)) (count_of (snd row))).
    + constructor; [exact Hs|]. constructor; [lia|].
      eapply Forall_impl; [|exact Hall]. simpl. intros a Ha. lia.
    + constructor; [now apply IH|].
      apply Forall_forall. intros x Hx. apply insert_desc_In in Hx.
      destruct Hx as [->|Hx]; [lia|].
      rewrite Forall_forall in Hall. now apply Hall.
Qed.

Lemma insert_desc_perm (row : string * Dict.t Z) (l : Frame Z) :
  Permutation (insert_desc row l) (row :: l).
Proof.
  induction l as [|r l IH]; simpl; [reflexivity|].
  destruct (count_of (snd r) <? count_of (snd row)); [reflexivity|].
  rewrite IH. apply perm_swap.
Qed.

(** The insertion sort is a sort: it permutes the rows and leaves them in
    descending order of their counts. *)
Lemma stable_sort_perm (df : Frame Z) : Permutation (stable_sort df) df.
Proof.
  unfold stable_sort.
  assert (H : forall acc,
             Permutation (fold_left (fun sorted row => insert_desc row sorted) df acc)
                         (df ++ acc)%list).
  { induction df as [|row df IH]; intros acc; simpl; [reflexivity|].
    rewrite IH, insert_desc_perm. symmetry. apply Permutation_middle. }
  rewrite H. now rewrite app_nil_r.
Qed.

Lemma stable_sort_sorted (df : Frame Z) : sorted_desc (stable_sort df).
Proof.
  unfold stable_sort.
  assert (H : forall acc, sorted_desc acc ->
                          sorted_desc (fold_left (fun sorted row => insert_desc row sorted)
                                                 df acc)).
  { induction df as [|row df IH]; intros acc Hs; simpl; [exact Hs|].
    apply IH, insert_desc_sorted, Hs. }
  apply H. constructor.
Qed.

Lemma sorted_desc_counts (df : Frame Z) :
  sorted_desc df ->
  StronglySorted (fun a b : string * Z => snd b <= snd a)
                 (map (fun '(relay, cells) => (relay, count_of cells)) df).
Proof.
  unfold sorted_desc. induction 1 as [|[r cells] l Hs IH Hall]; simpl; constructor.
  - exact IH.
  - apply Forall_forall. intros [r' c'] Hin. apply in_map_iff in Hin.
    destruct Hin as ([r'' cells''] & Heq & Hin). injection Heq as <- <-.
    rewrite Forall_forall in Hall. apply (Hall _ Hin).
Qed.

End FrameFacts.

(** ** The usage matrix of an input *)
Section UsageFrame.

Variable hostname : string -> string.

Lemma usage_of_get (relays : list string) (r : string) :
  forall inner,
    Dict.get r (fold_left (fun inner relay => Dict.set (hostname relay) 1 inner)
                          relays inner) =
    if uses hostname r relays then Some 1 else Dict.get r inner.
Proof.
  unfold uses. induction relays as [|relay relays IH]; intros inner; simpl; [reflexivity|].
  rewrite IH. destruct (existsb (String.eqb r) (map hostname relays)).
  - now rewrite orb_true_r.
  - rewrite orb_false_r. destruct (String.eqb_spec r (hostname relay)) as [->|Hne].
    + apply DictFacts.get_set_same.
    + apply DictFacts.get_set_other. congruence.
Qed.

Lemma usage_of_cell (relays : list string) (r : string) :
  Dict.get r (usage_of hostname relays) =
  if uses hostname r relays then Some 1 else None.
Proof.
  unfold usage_of. now rewrite usage_of_get.
Qed.

Lemma usage_dict_fold (input : Dict.t (list string)) :
  forall acc : Dict.t (Dict.t Z),
    NoDup (Dict.keys acc ++ Dict.keys input) ->
    fold_left (fun result '(pub, relays) => Dict.set pub (usage_of hostname relays) result)
              input acc =
    (acc ++ map (fun entry => (fst entry, usage_of hostname (snd entry))) input)%list.
Proof.
  induction input as [|[pub relays] input IH]; intros acc Hnd; simpl.
  - now rewrite app_nil_r.
  - assert (Habs : Dict.get pub acc = None).
    { apply DictFacts.get_None_keys. intros Hin.
      apply NoDup_remove_2 in Hnd. apply Hnd. apply in_or_app. now left. }
    rewrite DictFacts.set_absent by exact Habs. rewrite IH.
    + now rewrite <- app_assoc.
    + unfold Dict.keys in *. rewrite map_app. simpl. rewrite <- app_assoc. exact Hnd.
Qed.

Lemma usage_dict_map (input : Dict.t (list string)) :
  NoDup (Dict.keys input) ->
  usage_dict hostname input =
  map (fun entry => (fst entry, usage_of hostname (snd entry))) input.
Proof.
  intros Hnd. unfold usage_dict. now rewrite usage_dict_fold.
Qed.

Lemma set_add_In (x y : string) (s : list string) :
  In x (set_add y s) <-> x = y \/ In x s.
Proof.
  clear hostname.
  unfold set_add. destruct (existsb (String.eqb y) s) eqn:E.
  - apply existsb_eqb_In in E. split; [tauto | intros [->|H]; assumption].
  - rewrite in_app_iff. simpl. intuition.
Qed.

Lemma set_add_NoDup (y : string) (s : list string) :
  NoDup s -> NoDup (set_add y s).
Proof.
  clear hostname.
  intros Hnd. unfold set_add. destruct (existsb (String.eqb y) s) eqn:E; [exact Hnd|].
  assert (Hnot : ~ In y s).
  { intros H. apply existsb_eqb_In in H. congruence. }
  clear E. induction s as [|a s IH]; simpl.
  - constructor; [tauto | constructor].
  - inversion Hnd; subst. constructor.
    + rewrite in_app_iff. simpl. intros [H|[H|[]]]; [contradiction|].
      apply Hnot. now left.
    + apply IH; [assumption|]. intros H. apply Hnot. now right.
Qed.

Lemma set_add_fold (ks : list string) :
  forall index,
    (forall x, In x (fold_left (fun index relay => set_add relay index) ks index) <->
               In x ks \/ In x index) /\
    (NoDup index ->
     NoDup (fold_left (fun index relay => set_add relay index) ks index)).
Proof.
  clear hostname.
  induction ks as [|k ks IH]; intros index; simpl.
  - split; [intuition | auto].
  - destruct (IH (set_add k index)) as [HIn Hnd]. split.
    + intros x. rewrite HIn, set_add_In. intuition.
    + intros H. apply Hnd, set_add_NoDup, H.
Qed.

Lemma union_index_fold (inners : list (Dict.t Z)) :
  forall index,
    (forall x,
        In x (fold_left (fun index inner =>
                           fold_left (fun index relay => set_add relay index)
                                     (Dict.keys inner) index)
                        inners index) <->
        (exists inner, In inner inners /\ In x (Dict.keys inner)) \/ In x index) /\
    (NoDup index ->
     NoDup (fold_left (fun index inner =>
                         fold_left (fun index relay => set_add relay index)
                                   (Dict.keys inner) index)
                      inners index)).
Proof.
  induction inners as [|inner inners IH]; intros index; simpl.
  - split; [|auto]. intros x. split; [tauto|]. intros [(i & [] & _)|H]; exact H.
  - destruct (IH (fold_left (fun index relay => set_add relay index)
                            (Dict.keys inner) index)) as [HIn Hnd].
    destruct (set_add_fold (Dict.keys inner) index) as [HIn' Hnd']. split.
    + intros x. rewrite HIn, HIn'. split.
      * intros [(i & Hi & Hx)|[Hx|Hx]]; eauto.
      * intros [(i & [<-|Hi] & Hx)|Hx]; eauto.
    + intros H. apply Hnd, Hnd', H.
Qed.

Lemma usage_of_keys (relays : list string) (r : string) :
  In r (Dict.keys (usage_of hostname relays)) <-> uses hostname r relays = true.
Proof.
  pose proof (usage_of_cell relays r) as Hc.
  destruct (uses hostname r relays).
  - split; [reflexivity|]. intros _.
    apply DictFacts.get_Some_In in Hc. apply (in_map fst) in Hc. exact Hc.
  - apply DictFacts.get_None_keys in Hc. split; [contradiction | discriminate].
Qed.

Section WithInput.

Variable input : Dict.t (list string).
Hypothesis input_keys : NoDup (Dict.keys input).
Hypothesis input_no_count : ~ In "Count" (Dict.keys input).

Lemma usage_matrix_index (r : string) :
  In r (Dict.keys (usage_matrix hostname input)) <->
  exists entry, In entry input /\ uses hostname r (snd entry) = true.
Proof.
  unfold usage_matrix, Dict.keys. rewrite map_map. simpl. rewrite map_id.
  unfold union_index.
  rewrite (proj1 (union_index_fold (Dict.values (usage_dict hostname input)) [])).
  rewrite usage_dict_map by exact input_keys.
  unfold Dict.values. rewrite map_map. simpl. split.
  - intros [(inner & Hin & Hr)|[]]. apply in_map_iff in Hin.
    destruct Hin as (entry & <- & Hin). exists entry. split; [exact Hin|].
    now apply usage_of_keys.
  - intros (entry & Hin & Hr). left. exists (usage_of hostname (snd entry)). split.
    + apply in_map_iff. now exists entry.
    + now apply usage_of_keys.
Qed.

Lemma usage_matrix_NoDup : NoDup (Dict.keys (usage_matrix hostname input)).
Proof.
  unfold usage_matrix, Dict.keys. rewrite map_map. simpl. rewrite map_id.
  unfold union_index. apply union_index_fold. constructor.
Qed.

Lemma usage_matrix_row (r : string) (cells : Dict.t Z) :
  In (r, cells) (usage_matrix hostname input) -> cells = usage_cells hostname input r.
Proof.
  unfold usage_matrix. intros H. apply in_map_iff in H.
  destruct H as (r' & Heq & _). now injection Heq as <- <-.
Qed.

Lemma usage_cells_In (r f : string) (v : Z) :
  In (f, v) (usage_cells hostname input r) <->
  exists urls, In (f, urls) input /\ v = if uses hostname r urls then 1 else 0.
Proof.
  unfold usage_cells. rewrite in_map_iff. split.
  - intros ([f' urls] & Heq & Hin). simpl in Heq. injection Heq as <- <-.
    now exists urls.
  - intros (urls & Hin & ->). now exists (f, urls).
Qed.

Lemma usage_matrix_no_count (r : string) (cells : Dict.t Z) :
  In (r, cells) (usage_matrix hostname input) -> Dict.get "Count" cells = None.
Proof.
  intros H. apply usage_matrix_row in H. subst cells.
  apply DictFacts.get_None_keys. unfold usage_cells, Dict.keys.
  rewrite map_map. simpl. exact input_no_count.
Qed.

Lemma usage_matrix_nonneg (r : string) (cells : Dict.t Z) (f : string) (v : Z) :
  In (r, cells) (usage_matrix hostname input) -> In (f, v) cells -> 0 <= v.
Proof.
  intros H Hc. apply usage_matrix_row in H. subst cells.
  apply usage_cells_In in Hc. destruct Hc as (urls & _ & ->).
  destruct (uses hostname r urls); lia.
Qed.

Lemma usage_cells_sum (r : string) :
  row_sum (usage_cells hostname input r) = usage_count hostname input r.
Proof.
  unfold usage_count, usage_cells, row_sum, Dict.values. clear input_keys input_no_count.
  induction input as [|[pub urls] l IH]; [reflexivity|].
  cbn [map filter fold_right snd fst]. rewrite IH.
  destruct (uses hostname r urls); cbn [List.length]; lia.
Qed.

End WithInput.

End UsageFrame.

(** ** Sorting by count

    [sort_values("Count", ascending=False)] is any function that permutes
    the rows of a frame and leaves them in descending order of their
    counts; how it orders rows with equal counts is left open. *)
Section Statistics.

Variable sort_values : Frame Z -> Frame Z.
Hypothesis sort_perm : forall df, Permutation (sort_values df) df.
Hypothesis sort_sorted : forall df, sorted_desc (sort_values df).

Lemma sort_values_In (df : Frame Z) (x : string * Dict.t Z) :
  In x (sort_values df) <-> In x df.
Proof.
  split; apply Permutation_in; [apply sort_perm | symmetry; apply sort_perm].
Qed.

Lemma sort_values_length (df : Frame Z) :
  List.length (sort_values df) = List.length df.
Proof. apply Permutation_length, sort_perm. Qed.

Lemma sort_values_sorted (df : Frame Z) : sorted_desc (sort_values df).
Proof. apply sort_sorted. Qed.

Lemma cover_step_In (relay : string) (values : Dict.t Z) (df : Frame Z)
      (r : string) (cells : Dict.t Z) :
  In (r, cells) (cover_step sort_values relay values df) <->
  exists cells1,
    In (r, cells1) df /\ r <> relay /\
    cells = Dict.set "Count"
                     (row_sum (keep_columns (columns_where_positive values) cells1))
                     (keep_columns (columns_where_positive values) cells1).
Proof.
  unfold cover_step. rewrite sort_values_In. unfold set_count, drop_columns, drop_rows.
  rewrite map_map, in_map_iff. split.
  - intros ([r1 cells1] & Heq & Hin). apply filter_In in Hin. destruct Hin as [Hin Hne].
    simpl in Hne. apply negb_true_iff in Hne. apply String.eqb_neq in Hne.
    injection Heq as <- <-. exists cells1. auto.
  - intros (cells1 & Hin & Hne & ->). exists (r, cells1). split; [reflexivity|].
    apply filter_In. split; [exact Hin|]. simpl. apply negb_true_iff.
    now apply String.eqb_neq.
Qed.

Lemma cover_step_length (relay : string) (values : Dict.t Z) (rest : Frame Z) :
  (List.length (cover_step sort_values relay values ((relay, values) :: rest)) <= List.length rest)%nat.
Proof.
  unfold cover_step. rewrite sort_values_length. unfold set_count, drop_columns.
  rewrite !length_map. unfold drop_rows. simpl. rewrite String.eqb_refl. simpl.
  apply filter_length_le.
Qed.

(** ** The greedy cover loop *)
Section CoverLoop.

Variable base : Frame Z.
Hypothesis base_no_count :
  forall r cells, In (r, cells) base -> Dict.get "Count" cells = None.
Hypothesis base_nonneg :
  forall r cells f v, In (r, cells) base -> In (f, v) cells -> 0 <= v.
Hypothesis base_index : NoDup (Dict.keys base).

Lemma get_set_mono {V : Type} (s k : string) (x : V) (d : Dict.t V) :
  Dict.get s d <> None -> Dict.get s (Dict.set k x d) <> None.
Proof.
  intros H. destruct (String.eqb_spec k s) as [->|Hne].
  - rewrite DictFacts.get_set_same. discriminate.
  - now rewrite DictFacts.get_set_other.
Qed.

Lemma columns_where_positive_In (values : Dict.t Z) (f : string) :
  In f (columns_where_positive values) <-> exists v, In (f, v) values /\ 0 < v.
Proof.
  unfold columns_where_positive, Dict.keys. rewrite in_map_iff. split.
  - intros ([f' v] & Hf & Hin). simpl in Hf. subst f'.
    apply filter_In in Hin. destruct Hin as [Hin Hpos]. simpl in Hpos.
    exists v. split; [exact Hin | now apply Z.ltb_lt].
  - intros (v & Hin & Hpos). exists (f, v). split; [reflexivity|].
    apply filter_In. split; [exact Hin | now apply Z.ltb_lt].
Qed.

Lemma cover_inv_init : cover_inv base (sort_values (set_count base)) Dict.empty.
Proof.
  exists []. 
  assert (Hview : forall cells, view [] cells = Dict.set "Count" (row_sum cells) cells).
  { intros cells. unfold view. now rewrite keep_columns_nil. }
  assert (Hin : forall r cells,
             In (r, cells) (sort_values (set_count base)) <->
             exists cells0, In (r, cells0) base /\ cells = view [] cells0).
  { intros r cells. rewrite sort_values_In. unfold set_count. rewrite in_map_iff. split.
    - intros ([r0 cells0] & Heq & Hin). injection Heq as <- <-.
      exists cells0. split; [exact Hin | now rewrite Hview].
    - intros (cells0 & Hin & ->). exists (r, cells0). split; [now rewrite Hview | exact Hin]. }
  repeat split.
  - intros r cells H. apply Hin in H. destruct H as (cells0 & H0 & ->).
    exists cells0. auto.
  - intros r cells0 H0 _. apply Hin. now exists cells0.
  - intros f [].
  - intros s cells0 f v H. now elim H.
  - intros s H. now elim H.
  - apply sort_values_sorted.
Qed.

Lemma cover_inv_step (relay : string) (values : Dict.t Z) (rest : Frame Z)
      (selected : Dict.t (Dict.t Z)) (count : Z) :
  cover_inv base ((relay, values) :: rest) selected ->
  Dict.get "Count" values = Some count ->
  0 < count ->
  cover_inv base (cover_step sort_values relay values ((relay, values) :: rest))
            (Dict.set relay Dict.empty selected).
Proof.
  intros (dropped & I1 & I2 & I3 & I4 & I5 & _) Hcount Hpos.
  destruct (I1 relay values (or_introl eq_refl)) as (cells_h & Hbase_h & Hsel_h & Hvalues).
  set (ctd := columns_where_positive values).
  assert (Hctd : In "Count" ctd).
  { apply columns_where_positive_In. exists count. split; [|exact Hpos].
    now apply DictFacts.get_Some_In. }
  exists (ctd ++ dropped)%list. repeat split.
  - intros r cells Hin. apply cover_step_In in Hin.
    destruct Hin as (cells1 & Hin & Hne & ->).
    destruct (I1 r cells1 Hin) as (cells0 & Hbase & Hsel & ->).
    exists cells0. split; [exact Hbase|]. split.
    + rewrite DictFacts.get_set_other by congruence. exact Hsel.
    + apply view_step; [now apply (base_no_count r) | exact Hctd].
  - intros r cells0 Hbase Hsel.
    assert (Hne : r <> relay).
    { intros ->. now rewrite DictFacts.get_set_same in Hsel. }
    rewrite DictFacts.get_set_other in Hsel by congruence.
    apply cover_step_In. exists (view dropped cells0).
    split; [now apply I2|]. split; [exact Hne|].
    symmetry. apply view_step; [now apply (base_no_count r) | exact Hctd].
  - intros f Hin. apply in_app_or in Hin. destruct Hin as [Hin|Hin].
    + apply columns_where_positive_In in Hin. destruct Hin as (v & Hin & Hv).
      rewrite Hvalues, view_app in Hin by now apply (base_no_count relay).
      apply in_app_or in Hin. destruct Hin as [Hin|[Heq|[]]].
      * right. exists relay, cells_h, v. apply keep_columns_In in Hin.
        rewrite DictFacts.get_set_same. repeat split; try tauto. discriminate.
      * left. now injection Heq as <- _.
    + destruct (I3 f Hin) as [->|(s & cells0 & v & Hs & Hb & Hc & Hv)]; [now left|].
      right. exists s, cells0, v. repeat split; auto. now apply get_set_mono.
  - intros s cells0 f v Hs Hb Hc Hv. apply in_or_app.
    destruct (String.eqb_spec relay s) as [<-|Hne].
    + assert (cells0 = cells_h).
      { apply (DictFacts.In_get_NoDup _ _ _ base_index) in Hb.
        apply (DictFacts.In_get_NoDup _ _ _ base_index) in Hbase_h. congruence. }
      subst cells0.
      destruct (in_dec string_dec f dropped) as [Hd|Hd]; [now right|].
      left. apply columns_where_positive_In. exists v. split; [|exact Hv].
      rewrite Hvalues, view_app by now apply (base_no_count relay).
      apply in_or_app. left. apply keep_columns_In. tauto.
    + rewrite DictFacts.get_set_other in Hs by exact Hne.
      right. now apply (I4 s cells0 f v).
  - intros s Hs. destruct (String.eqb_spec relay s) as [<-|Hne].
    + now exists cells_h.
    + rewrite DictFacts.get_set_other in Hs by exact Hne. now apply I5.
  - unfold cover_step. apply sort_values_sorted.
Qed.

(** With fuel beyond the number of rows the loop either raises
    [IndexError] or ends on a frame whose first row has no count left. *)
Lemma cover_loop_outcome (fuel : nat) :
  forall (new_df : Frame Z) (selected : Dict.t (Dict.t Z)),
    cover_inv base new_df selected ->
    (List.length new_df < fuel)%nat ->
    cover_loop sort_values fuel new_df selected = Raise IndexError \/
    exists selected' final,
      cover_loop sort_values fuel new_df selected = Ok (selected', final) /\
      cover_inv base final selected' /\
      (exists relay values rest,
          final = (relay, values) :: rest /\ count_of values <= 0) /\
      Dict.keys selected' = (Dict.keys selected ++ selection sort_values fuel new_df)%list.
Proof.
  induction fuel as [|fuel IH]; intros new_df selected Hinv Hfuel; [lia|].
  destruct new_df as [|[relay values] rest]; [now left|].
  pose proof Hinv as (dropped & I1 & _).
  destruct (I1 relay values (or_introl eq_refl)) as (cells_h & Hbase_h & Hsel_h & Hvalues).
  assert (Hcount : Dict.get "Count" values =
                   Some (row_sum (keep_columns dropped cells_h))).
  { rewrite Hvalues. apply view_count. }
  cbn [cover_loop selection]. unfold count_of. rewrite Hcount.
  destruct (Z.ltb_spec 0 (row_sum (keep_columns dropped cells_h))) as [Hpos|Hle].
  - destruct (IH (cover_step sort_values relay values ((relay, values) :: rest))
                 (Dict.set relay Dict.empty selected)) as [Hraise | Hok].
    + now apply cover_inv_step with (count := row_sum (keep_columns dropped cells_h)).
    + pose proof (cover_step_length relay values rest). simpl in Hfuel. lia.
    + now left.
    + right. destruct Hok as (selected' & final & Hrun & Hinv' & Hexit & Hkeys).
      exists selected', final. repeat split; auto.
      rewrite Hkeys, DictFacts.keys_set. unfold Dict.mem. rewrite Hsel_h.
      now rewrite <- app_assoc.
  - right. exists selected, ((relay, values) :: rest). repeat split; auto.
    + exists relay, values, rest. split; [reflexivity|].
      unfold count_of. rewrite Hcount. exact Hle.
    + now rewrite app_nil_r.
Qed.

End CoverLoop.

(** ** The minimal cover of an input *)
Section MinimalCover.

Variable hostname : string -> string.
Variable input : Dict.t (list string).
Hypothesis input_keys : NoDup (Dict.keys input).
Hypothesis input_no_count : ~ In "Count" (Dict.keys input).

Let base : Frame Z := usage_matrix hostname input.
Let df : Frame Z := usage_frame hostname sort_values input.

Lemma usage_frame_matrix :
  usage_frame hostname sort_values input =
  sort_values (set_count (usage_matrix hostname input)).
Proof.
  unfold usage_frame. do 2 f_equal.
  unfold usage_matrix, DataFrame_of_dict, fillna. rewrite map_map.
  apply map_ext. intros r. f_equal.
  rewrite usage_dict_map by exact input_keys. rewrite !map_map.
  unfold usage_cells. apply (f_equal (pair r)). apply map_ext. intros [pub urls]. simpl.
  rewrite usage_of_cell. now destruct (uses hostname r urls).
Qed.


Lemma uses_In (r : string) (urls : list string) :
  uses hostname r urls = true <-> In r (map hostname urls).
Proof. apply existsb_eqb_In. Qed.

Lemma usage_frame_In (r : string) (cells : Dict.t Z) :
  In (r, cells) df <->
  In r (Dict.keys base) /\
  cells = Dict.set "Count" (usage_count hostname input r) (usage_cells hostname input r).
Proof.
  unfold df. rewrite usage_frame_matrix by assumption.
  rewrite sort_values_In. unfold set_count. rewrite in_map_iff. split.
  - intros ([r0 cells0] & Heq & Hin). injection Heq as <- <-.
    pose proof (usage_matrix_row _ _ _ _ Hin) as ->. split.
    + apply (in_map fst) in Hin. exact Hin.
    + now rewrite usage_cells_sum.
  - intros [Hin ->]. exists (r, usage_cells hostname input r). split.
    + now rewrite usage_cells_sum.
    + unfold base, Dict.keys in Hin. apply in_map_iff in Hin.
      destruct Hin as ([r' cells'] & Hr & Hin). simpl in Hr. subst r'.
      now rewrite <- (usage_matrix_row _ _ _ _ Hin).
Qed.

(** [df["Count"][relay]] is the number of followers that use the relay. *)
Lemma count_at_usage (r : string) :
  In r (Dict.keys base) -> count_at df r = Ok (usage_count hostname input r).
Proof.
  intros Hin. unfold count_at, Dict.item.
  destruct (Dict.get r df) as [cells|] eqn:Hget.
  - apply DictFacts.get_Some_In in Hget. apply usage_frame_In in Hget.
    destruct Hget as [_ ->]. simpl. now rewrite DictFacts.get_set_same.
  - exfalso. apply DictFacts.get_None_keys in Hget. apply Hget.
    assert (H : In (r, Dict.set "Count" (usage_count hostname input r)
                                (usage_cells hostname input r)) df)
      by (apply usage_frame_In; auto).
    apply (in_map fst) in H. exact H.
Qed.

Lemma cover_loop_of_input :
  cover_loop sort_values (S (List.length df)) df Dict.empty = Raise IndexError \/
  exists selected final,
    cover_loop sort_values (S (List.length df)) df Dict.empty = Ok (selected, final) /\
    cover_inv base final selected /\
    (exists relay values rest,
        final = (relay, values) :: rest /\ count_of values <= 0) /\
    Dict.keys selected = selection sort_values (S (List.length df)) df.
Proof.
  assert (Hno : forall r cells, In (r, cells) base -> Dict.get "Count" cells = None).
  { intros r cells. now apply usage_matrix_no_count. }
  assert (Hnn : forall r cells f v, In (r, cells) base -> In (f, v) cells -> 0 <= v).
  { intros r cells f v. apply usage_matrix_nonneg. }
  assert (Hnd : NoDup (Dict.keys base)) by now apply usage_matrix_NoDup.
  assert (Hinit : cover_inv base df Dict.empty).
  { unfold df. rewrite usage_frame_matrix by assumption. apply cover_inv_init. }
  destruct (@cover_loop_outcome base Hno Hnd (S (List.length df)) df Dict.empty Hinit)
    as [H|H].
  - lia.
  - now left.
  - right. exact H.
Qed.

(** The row on which the loop ends belongs to a relay that was not
    selected and whose followers are all covered by the selected ones. *)
Lemma cover_loop_exit_row (selected : Dict.t (Dict.t Z)) (final : Frame Z)
      (relay : string) (values : Dict.t Z) (rest : Frame Z) :
  cover_inv base final selected ->
  final = (relay, values) :: rest ->
  count_of values <= 0 ->
  Dict.get "Count" values = Some 0 /\
  ~ In relay (Dict.keys selected) /\
  In relay (relay_hosts hostname input) /\
  (forall pub urls, In (pub, urls) input -> uses hostname relay urls = true ->
                    exists s, In s (Dict.keys selected) /\ s <> relay /\
                              uses hostname s urls = true).
Proof.
  intros (dropped & I1 & _ & I3 & _) -> Hle.
  destruct (I1 relay values (or_introl eq_refl)) as (cells0 & Hbase & Hsel & ->).
  pose proof (usage_matrix_row _ _ _ _ Hbase) as ->.
  unfold count_of in Hle. rewrite view_count in *.
  set (kept := keep_columns dropped (usage_cells hostname input relay)) in *.
  assert (Hnn : forall f v, In (f, v) kept -> 0 <= v).
  { intros f v Hin. apply keep_columns_In in Hin.
    eapply usage_matrix_nonneg; [exact Hbase | apply (proj1 Hin)]. }
  pose proof (row_sum_nonneg _ Hnn) as Hge.
  split; [f_equal; lia|]. split; [now apply DictFacts.get_None_keys|]. split.
  - apply (in_map fst) in Hbase. apply usage_matrix_index in Hbase; [|assumption].
    destruct Hbase as (entry & Hin & Huses). unfold relay_hosts.
    apply in_flat_map. exists entry. split; [exact Hin | now apply uses_In].
  - intros pub urls Hin Huses.
    assert (Hcell : In (pub, 1) (usage_cells hostname input relay)).
    { apply usage_cells_In. exists urls. now rewrite Huses. }
    destruct (in_dec string_dec pub dropped) as [Hd|Hd].
    + destruct (I3 pub Hd) as [->|(s & cells_s & v & Hs & Hb & Hc & Hv)].
      * exfalso. apply input_no_count. apply (in_map fst) in Hin. exact Hin.
      * pose proof (usage_matrix_row _ _ _ _ Hb) as ->.
        apply usage_cells_In in Hc. destruct Hc as (urls' & Hin' & ->).
        assert (urls' = urls).
        { apply (DictFacts.In_get_NoDup _ _ _ input_keys) in Hin.
          apply (DictFacts.In_get_NoDup _ _ _ input_keys) in Hin'. congruence. }
        subst urls'. exists s. split; [|split].
        -- apply DictFacts.get_None_keys' in Hs. exact Hs.
        -- intros ->. contradiction.
        -- destruct (uses hostname s urls); [reflexivity | lia].
    + exfalso.
      assert (0 < row_sum kept).
      { apply row_sum_positive with (f := pub) (v := 1); [exact Hnn| |lia].
        apply keep_columns_In. tauto. }
      lia.
Qed.

(** When the loop ends normally, every follower that uses some relay uses
    a selected one. *)
Lemma cover_loop_exit_covers (selected : Dict.t (Dict.t Z)) (final : Frame Z)
      (relay : string) (values : Dict.t Z) (rest : Frame Z) :
  cover_inv base final selected ->
  final = (relay, values) :: rest ->
  count_of values <= 0 ->
  forall pub urls r0,
    In (pub, urls) input -> uses hostname r0 urls = true ->
    exists s, In s (Dict.keys selected) /\ uses hostname s urls = true.
Proof.
  intros (dropped & I1 & I2 & I3 & _ & _ & I6) -> Hle pub urls r0 Hin Huses.
  destruct (Dict.get r0 selected) as [e|] eqn:Hsel.
  { exists r0. split; [|exact Huses].
    apply DictFacts.get_None_keys'. congruence. }
  assert (Hrow : In r0 (Dict.keys base)).
  { apply usage_matrix_index; [assumption|]. now exists (pub, urls). }
  unfold Dict.keys in Hrow. apply in_map_iff in Hrow.
  destruct Hrow as ([r0' cells0] & Hr & Hbase). simpl in Hr. subst r0'.
  pose proof (usage_matrix_row _ _ _ _ Hbase) as ->.
  pose proof (I2 _ _ Hbase Hsel) as Hfinal.
  assert (Hcount : row_sum (keep_columns dropped (usage_cells hostname input r0)) <= 0).
  { assert (Hc : count_of (view dropped (usage_cells hostname input r0)) <= count_of values).
    { destruct Hfinal as [Heq|Hrest].
      - injection Heq as _ <-. lia.
      - unfold sorted_desc in I6. inversion I6 as [|? ? _ Hall]; subst.
        rewrite Forall_forall in Hall. apply (Hall _ Hrest). }
    unfold count_of at 1 in Hc. rewrite view_count in Hc. lia. }
  destruct (in_dec string_dec pub dropped) as [Hd|Hd].
  - destruct (I3 pub Hd) as [->|(s & cells_s & v & Hs & Hb & Hc & Hv)].
    + exfalso. apply input_no_count. apply (in_map fst) in Hin. exact Hin.
    + pose proof (usage_matrix_row _ _ _ _ Hb) as ->.
      apply usage_cells_In in Hc. destruct Hc as (urls' & Hin' & ->).
      assert (urls' = urls).
      { apply (DictFacts.In_get_NoDup _ _ _ input_keys) in Hin.
        apply (DictFacts.In_get_NoDup _ _ _ input_keys) in Hin'. congruence. }
      subst urls'. exists s. split.
      * now apply DictFacts.get_None_keys'.
      * destruct (uses hostname s urls); [reflexivity | lia].
  - exfalso.
    assert (0 < row_sum (keep_columns dropped (usage_cells hostname input r0))).
    { apply row_sum_positive with (f := pub) (v := 1); [| |lia].
      - intros f v Hk. apply keep_columns_In in Hk.
        eapply usage_matrix_nonneg; [exact Hbase | apply (proj1 Hk)].
      - apply keep_columns_In. split; [|exact Hd].
        apply usage_cells_In. exists urls. now rewrite Huses. }
    lia.
Qed.

Lemma cover_loop_keys_NoDup (fuel : nat) :
  forall (new_df : Frame Z) (selected selected' : Dict.t (Dict.t Z)) (final : Frame Z),
    cover_loop sort_values fuel new_df selected = Ok (selected', final) ->
    NoDup (Dict.keys selected) -> NoDup (Dict.keys selected').
Proof.
  induction fuel as [|fuel IH]; intros new_df selected selected' final Hrun Hnd;
    [discriminate Hrun|].
  destruct new_df as [|[relay values] rest]; [discriminate Hrun|].
  cbn [cover_loop] in Hrun.
  destruct (Dict.get "Count" values) as [count|]; [|discriminate Hrun].
  destruct (0 <? count).
  - apply IH in Hrun; [exact Hrun|]. now apply DictFacts.NoDup_keys_set.
  - now injection Hrun as <- _.
Qed.

(** Lines 355-356 succeed when every listed relay is a key of the dict
    and a row of the frame; they change no key. *)
Lemma fill_counts_ok (frame : Frame Z) (c : string -> Z) (relays : list string) :
  forall mnr : Dict.t (Dict.t Z),
    (forall r, In r relays -> Dict.get r mnr <> None /\ count_at frame r = Ok (c r)) ->
    exists mnr',
      fill_counts frame relays mnr = Ok mnr' /\
      Dict.keys mnr' = Dict.keys mnr /\
      (forall r, In r relays ->
                 exists entry, Dict.get r mnr' = Some entry /\
                               Dict.get "Number of followers" entry = Some (c r)) /\
      (forall r, ~ In r relays -> Dict.get r mnr' = Dict.get r mnr).
Proof.
  induction relays as [|relay relays IH]; intros mnr H.
  - exists mnr. simpl. repeat split; auto. intros r [].
  - destruct (H relay (or_introl eq_refl)) as [Hkey Hc].
    cbn [fill_counts]. rewrite Hc. cbn [bind]. unfold Dict.item.
    destruct (Dict.get relay mnr) as [entry0|] eqn:Hget; [|congruence]. cbn [bind].
    set (mnr1 := Dict.set relay (Dict.set "Number of followers" (c relay) entry0) mnr).
    destruct (IH mnr1) as (mnr' & Hrun & Hkeys & Hin & Hout).
    { intros r Hr. destruct (H r (or_intror Hr)) as [Hk Hcr]. split; [|exact Hcr].
      now apply get_set_mono. }
    exists mnr'. split; [exact Hrun|]. split; [|split].
    + rewrite Hkeys. apply DictFacts.keys_set_present. congruence.
    + intros r [<-|Hr]; [|now apply Hin].
      destruct (in_dec string_dec relay relays) as [Hr|Hr]; [now apply Hin|].
      rewrite (Hout _ Hr). unfold mnr1. rewrite DictFacts.get_set_same.
      eexists. split; [reflexivity | apply DictFacts.get_set_same].
    + intros r Hr. rewrite Hout by (intros Hr'; apply Hr; now right).
      unfold mnr1. apply DictFacts.get_set_other. intros ->. apply Hr. now left.
Qed.

(** The table of necessary relays, whenever the computation returns one. *)
Lemma minimal_cover_table (table : list (string * Z)) :
  minimal_cover sort_values df = Ok table ->
  exists selected relay values rest,
    cover_loop sort_values (S (List.length df)) df Dict.empty = Ok (selected, (relay, values) :: rest) /\
    cover_inv base ((relay, values) :: rest) selected /\
    count_of values <= 0 /\
    Dict.keys selected = selection sort_values (S (List.length df)) df /\
    table = map (fun r => (r, usage_count hostname input r)) (Dict.keys selected).
Proof.
  intros Hmc. unfold minimal_cover in Hmc.
  destruct cover_loop_of_input as [Hraise | (selected & final & Hrun & Hinv & Hexit & Hsel)].
  { rewrite Hraise in Hmc. discriminate Hmc. }
  destruct Hexit as (relay & values & rest & -> & Hle).
  exists selected, relay, values, rest. repeat split; auto.
  rewrite Hrun in Hmc. cbn [bind] in Hmc.
  assert (Hnd : NoDup (Dict.keys selected)).
  { apply (cover_loop_keys_NoDup _ _ _ Hrun). constructor. }
  destruct (@fill_counts_ok df (usage_count hostname input) (Dict.keys selected) selected)
    as (mnr' & Hfill & Hkeys & Hin & _).
  { intros r Hr. split.
    - intros Hn. apply DictFacts.get_None_keys in Hn. contradiction.
    - apply count_at_usage. destruct Hinv as (dropped & _ & _ & _ & _ & I5 & _).
      destruct (I5 r) as (cells0 & Hb).
      + intros Hn. apply DictFacts.get_None_keys in Hn. contradiction.
      + apply (in_map fst) in Hb. exact Hb. }
  rewrite Hfill in Hmc. cbn [bind] in Hmc. unfold cover_table in Hmc.
  assert (Hmap : map (fun '(relay, entry) =>
                        (relay, match Dict.get "Number of followers" entry with
                                | Some c => c
                                | None => 0
                                end)) mnr' =
                 map (fun r => (r, usage_count hostname input r)) (Dict.keys selected)).
  { rewrite <- Hkeys. unfold Dict.keys. rewrite map_map. apply map_ext_in.
    intros [r entry] Hr. simpl.
    assert (Hg : Dict.get r mnr' = Some entry).
    { apply DictFacts.In_get_NoDup; [now rewrite Hkeys | exact Hr]. }
    destruct (Hin r) as (entry' & Hg' & Hnum).
    - rewrite <- Hkeys. apply (in_map fst) in Hr. exact Hr.
    - rewrite Hg in Hg'. injection Hg' as <-. now rewrite Hnum. }
  destruct mnr' as [|m mnr']; [discriminate Hmc|].
  injection Hmc as <-. exact Hmap.
Qed.

End MinimalCover.

(** ** The tables of the relay report *)
Section ReportTables.

Variable hostname : string -> string.
Variable input : Dict.t (list string).
Hypothesis input_keys : NoDup (Dict.keys input).
Hypothesis input_no_count : ~ In "Count" (Dict.keys input).

Lemma relay_hosts_rows (r : string) :
  In r (relay_hosts hostname input) <-> In r (Dict.keys (usage_matrix hostname input)).
Proof.
  rewrite usage_matrix_index by assumption. unfold relay_hosts. rewrite in_flat_map.
  split; intros (entry & Hin & H); exists entry; (split; [exact Hin|]);
    now apply existsb_eqb_In.
Qed.

Lemma usage_count_bounds (r : string) :
  0 <= usage_count hostname input r <= Z.of_nat (List.length input) /\
  (In r (relay_hosts hostname input) -> 1 <= usage_count hostname input r) /\
  (~ In r (relay_hosts hostname input) -> usage_count hostname input r = 0).
Proof.
  clear input_keys input_no_count.
  unfold usage_count. split; [|split].
  - pose proof (filter_length_le (fun entry => uses hostname r (snd entry)) input). lia.
  - intros Hin. unfold relay_hosts in Hin. apply in_flat_map in Hin.
    destruct Hin as (entry & Hin & Hr).
    assert (Hf : In entry (filter (fun entry => uses hostname r (snd entry)) input)).
    { apply filter_In. split; [exact Hin | now apply existsb_eqb_In]. }
    destruct (filter _ input); [destruct Hf | simpl; lia].
  - intros Hnot.
    assert (Hf : filter (fun entry => uses hostname r (snd entry)) input = []).
    { induction input as [|entry l IH]; [reflexivity|]. simpl.
      destruct (uses hostname r (snd entry)) eqn:E.
      - exfalso. apply Hnot. unfold relay_hosts. simpl. apply in_or_app. left.
        now apply existsb_eqb_In.
      - apply IH. intros H. apply Hnot. unfold relay_hosts. simpl.
        apply in_or_app. now right. }
    now rewrite Hf.
Qed.

Lemma usage_frame_keys_NoDup : NoDup (Dict.keys (usage_frame hostname sort_values input)).
Proof.
  rewrite usage_frame_matrix by assumption. unfold Dict.keys.
  apply (Permutation_NoDup (l := map fst (set_count (usage_matrix hostname input)))).
  - apply Permutation_map. symmetry. apply sort_perm.
  - unfold set_count. rewrite map_map.
    assert (Heq : map (fun x : string * Dict.t Z =>
                         fst (let '(relay, cells) := x in
                              (relay, Dict.set "Count" (row_sum cells) cells)))
                      (usage_matrix hostname input) =
                  Dict.keys (usage_matrix hostname input)).
    { unfold Dict.keys. apply map_ext. now intros [r c]. }
    rewrite Heq. now apply usage_matrix_NoDup.
Qed.

Lemma usage_frame_counts (r : string) (c : Z) :
  In (r, c) (map (fun '(relay, cells) => (relay, count_of cells))
                 (usage_frame hostname sort_values input)) <->
  In r (relay_hosts hostname input) /\ c = usage_count hostname input r.
Proof.
  rewrite in_map_iff. split.
  - intros ([r' cells] & Heq & Hin). injection Heq as <- <-.
    apply usage_frame_In in Hin; try assumption. destruct Hin as [Hrow ->].
    split; [now apply relay_hosts_rows|].
    unfold count_of. now rewrite DictFacts.get_set_same.
  - intros [Hr ->].
    exists (r, Dict.set "Count" (usage_count hostname input r)
                        (usage_cells hostname input r)). split.
    + unfold count_of. now rewrite DictFacts.get_set_same.
    + apply usage_frame_In; try assumption. split; [now apply relay_hosts_rows | reflexivity].
Qed.

End ReportTables.

(** ** The shape of the necessary-relays table *)
Section TableShape.

Variable hostname : string -> string.
Variable input : Dict.t (list string).
Hypothesis input_keys : NoDup (Dict.keys input).
Hypothesis input_no_count : ~ In "Count" (Dict.keys input).

(** The first row of the usage frame is selected first. *)
Lemma selection_head (relay : string) (values : Dict.t Z) (rest : Frame Z) :
  usage_frame hostname sort_values input = (relay, values) :: rest ->
  exists later,
    selection sort_values (S (List.length (usage_frame hostname sort_values input))) (usage_frame hostname sort_values input) =
    relay :: later.
Proof.
  intros Hdf.
  assert (Hin : In (relay, values) (usage_frame hostname sort_values input))
    by (rewrite Hdf; now left).
  apply usage_frame_In in Hin; try assumption. destruct Hin as [Hrow Hvalues].
  assert (Hpos : 1 <= usage_count hostname input relay).
  { apply usage_count_bounds. now apply relay_hosts_rows. }
  rewrite Hdf. cbn [selection]. unfold count_of. rewrite Hvalues, DictFacts.get_set_same.
  destruct (Z.ltb_spec 0 (usage_count hostname input relay)); [|lia].
  eexists. reflexivity.
Qed.

Lemma usage_frame_length :
  List.length (usage_frame hostname sort_values input) =
  List.length (Dict.keys (usage_matrix hostname input)).
Proof.
  rewrite usage_frame_matrix by assumption. rewrite sort_values_length.
  unfold set_count, Dict.keys. now rewrite !length_map.
Qed.

End TableShape.

(** What a returned report holds, by the sections that were run. *)
Section Report.

Variable hostname : string -> string.
Variable input : Dict.t (list string).

Lemma get_relay_statistics_necessary (relays_of_followers : bool) (report : RelayReport) :
  get_relay_statistics hostname sort_values relays_of_followers true input = Ok report ->
  exists table,
    minimal_cover sort_values (usage_frame hostname sort_values input) = Ok table /\
    necessary_relays_table report = Some table.
Proof.
  unfold get_relay_statistics. intros Hrun.
  destruct (if relays_of_followers
            then counts <- relays_of_followers_section
                             (usage_frame hostname sort_values input) ;;
                 Ok (Some counts)
            else Ok None) as [counts| |]; try discriminate Hrun.
  cbn [bind] in Hrun.
  destruct (minimal_cover sort_values (usage_frame hostname sort_values input))
    as [table| |]; try discriminate Hrun.
  cbn [bind] in Hrun. injection Hrun as <-. exists table. split; reflexivity.
Qed.

Lemma get_relay_statistics_counts (necessary_relays : bool) (report : RelayReport) :
  get_relay_statistics hostname sort_values true necessary_relays input = Ok report ->
  relays_of_followers_table report =
    Some (map (fun '(relay, cells) => (relay, count_of cells))
              (usage_frame hostname sort_values input)) /\
  (10 <= List.length (usage_frame hostname sort_values input))%nat.
Proof.
  unfold get_relay_statistics, relays_of_followers_section. intros Hrun.
  rewrite length_map in Hrun.
  destruct (Nat.ltb_spec (List.length (usage_frame hostname sort_values input)) 10)
    as [Hlt|Hge]; [discriminate Hrun|].
  cbn [bind] in Hrun. split; [|exact Hge].
  destruct necessary_relays.
  - destruct (minimal_cover sort_values (usage_frame hostname sort_values input));
      try discriminate Hrun.
    cbn [bind] in Hrun. now injection Hrun as <-.
  - now injection Hrun as <-.
Qed.


End Report.

(** ** Frames of at most three rows

    On the concrete inputs below the frames are short, and the order that
    any sort gives them is determined up to the rows of equal count. *)
Section SmallFrames.

Lemma sort_values_nil : sort_values [] = [].
Proof. apply Permutation_nil. symmetry. apply sort_perm. Qed.

Lemma sort_values_single (x : string * Dict.t Z) : sort_values [x] = [x].
Proof. apply Permutation_length_1_inv. symmetry. apply sort_perm. Qed.

Lemma sort_values_pair (a b : string * Dict.t Z) :
  count_of (snd b) < count_of (snd a) ->
  sort_values [a; b] = [a; b] /\ sort_values [b; a] = [a; b].
Proof.
  intros Hlt.
  assert (H : forall l, Permutation l [a; b] -> sorted_desc l -> l = [a; b]).
  { intros l Hl Hs. symmetry in Hl. apply Permutation_length_2_inv in Hl.
    destruct Hl as [->| ->]; [reflexivity|].
    unfold sorted_desc in Hs. inversion Hs as [|? ? _ Hall]; subst.
    inversion Hall; subst. lia. }
  split; apply H; try apply sort_sorted.
  - apply sort_perm.
  - rewrite sort_perm. apply perm_swap.
Qed.

Lemma sort_values_triple (a m b : string * Dict.t Z) :
  count_of (snd a) < count_of (snd m) ->
  count_of (snd b) < count_of (snd m) ->
  sort_values [a; m; b] = [m; a; b] \/ sort_values [a; m; b] = [m; b; a].
Proof.
  intros Ha Hb.
  pose proof (sort_perm [a; m; b]) as Hl. pose proof (sort_sorted [a; m; b]) as Hs.
  destruct (sort_values [a; m; b]) as [|x l]; [now apply Permutation_nil_cons in Hl|].
  assert (Hx : x = m).
  { assert (Hin : In m (x :: l)).
    { apply (Permutation_in m (Permutation_sym Hl)). simpl. tauto. }
    assert (Hinx : In x [a; m; b]) by (apply (Permutation_in x Hl); now left).
    destruct Hin as [Heq|Hin]; [exact Heq|].
    unfold sorted_desc in Hs. inversion Hs as [|? ? _ Hall]; subst.
    rewrite Forall_forall in Hall. specialize (Hall m Hin).
    simpl in Hinx. destruct Hinx as [<-|[<-|[<-|[]]]]; try reflexivity; lia. }
  subst x.
  assert (Hl' : Permutation l [a; b]).
  { apply Permutation_cons_inv with (a := m). rewrite Hl. apply perm_swap. }
  symmetry in Hl'. apply Permutation_length_2_inv in Hl'. destruct Hl' as [->| ->]; auto.
Qed.

(** Evaluate up to the next sort of a concrete frame and order it. *)
Ltac sort_small :=
  vm_compute;
  match goal with
  | |- context [sort_values []] => rewrite sort_values_nil
  | |- context [sort_values [?a]] => rewrite (sort_values_single a)
  | |- context [sort_values [?a; ?b]] =>
      first [ rewrite (proj1 (@sort_values_pair a b ltac:(vm_compute; reflexivity)))
            | rewrite (proj2 (@sort_values_pair b a ltac:(vm_compute; reflexivity))) ]
  end.

Lemma empty_input_statistics (hostname : string -> string) :
  get_relay_statistics hostname sort_values false true Dict.empty = Raise IndexError /\
  get_relay_statistics hostname sort_values true true Dict.empty = Raise ValueError.
Proof.
  split; sort_small; reflexivity.
Qed.

Lemma single_follower_statistics :
  get_relay_statistics strip_scheme sort_values false true single_follower =
    Raise IndexError /\
  get_relay_statistics strip_scheme sort_values true true single_follower =
    Raise ValueError /\
  selection sort_values 2 (usage_frame strip_scheme sort_values single_follower) = ["r1"].
Proof.
  split; [|split].
  - sort_small. sort_small. reflexivity.
  - sort_small. reflexivity.
  - sort_small. sort_small. reflexivity.
Qed.

Lemma example_followers_statistics :
  get_relay_statistics strip_scheme sort_values false true example_followers =
  Ok {| relays_of_followers_table := None;
        necessary_relays_table := Some [("r2", 2); ("r3", 1)] |}.
Proof.
  vm_compute.
  match goal with
  | |- context [sort_values [?a; ?m; ?b]] =>
      destruct (@sort_values_triple a m b ltac:(vm_compute; reflexivity)
                                    ltac:(vm_compute; reflexivity)) as [E|E];
      rewrite E
  end; sort_small; sort_small; reflexivity.
Qed.

End SmallFrames.

End Statistics.

(** ** Zero recovered events *)

(** C6 at the failing input: one relay signals EOSE and delivers no
    event.  [get_relays] and [get_follower_and_their_relays] accept the
    empty mapping, but [get_own_relays] raises [KeyError] on the missing
    identity, [get_notifications] raises [KeyError] on the column
    [created_at] of the empty frame, and the relay statistics of the empty
    mapping raise [IndexError] in the necessary-relays loop (and, with the
    relays-of-followers table on, [ValueError] for its height 0 before
    that). *)
Theorem empty_result_raises
    (from_npub : string -> Outcome string) (json_loads : string -> option PyValue)
    (datetime_in_bounds : Z -> bool) (hostname : string -> string)
    (sort_values : Frame Z -> Frame Z) :
  (forall df, Permutation (sort_values df) df) ->
  get_relays json_loads ["abc"] quiet_relay =
    Ok (Dict.empty,
        after_rounds {| kinds := [CONTACTS]; authors := ["abc"]; pubkey_refs := [] |}
                     1 quiet_relay) /\
  get_own_relays from_npub json_loads "abc" quiet_relay = Raise (KeyError "abc") /\
  get_notifications from_npub datetime_in_bounds "abc" quiet_relay =
    Raise (KeyError "created_at") /\
  get_follower_and_their_relays from_npub json_loads "abc" quiet_relay =
    Ok ([], Dict.empty,
        after_rounds {| kinds := [CONTACTS]; authors := []; pubkey_refs := ["abc"] |}
                     1 quiet_relay) /\
  get_relay_statistics hostname sort_values false true Dict.empty = Raise IndexError /\
  get_relay_statistics hostname sort_values true true Dict.empty = Raise ValueError.
Proof.
  intros Hp.
  split; [reflexivity|]. split; [reflexivity|]. split; [reflexivity|].
  split; [reflexivity|].
  apply (@empty_input_statistics sort_values Hp hostname).
Qed.

Lemma empty_result_raises_witness :
  (forall df, Permutation (stable_sort df) df) /\
  get_own_relays npub_stub json_stub "abc" quiet_relay = Raise (KeyError "abc") /\
  get_notifications npub_stub in_bounds_stub "abc" quiet_relay =
    Raise (KeyError "created_at") /\
  get_relay_statistics strip_scheme stable_sort false true Dict.empty = Raise IndexError.
Proof.
  split; [exact stable_sort_perm|].
  destruct (@empty_result_raises npub_stub json_stub in_bounds_stub strip_scheme
                                 stable_sort stable_sort_perm)
    as (_ & Hown & Hnotif & _ & Hstat & _).
  split; [exact Hown|]. split; [exact Hnotif|]. exact Hstat.
Defined.

(** ** The necessary-relays table *)

(** X11: when [get_relay_statistics] returns with the necessary relays
    computed, the selected relays reach every follower that has at least
    one relay: each such follower uses one of the relays of the table. *)
Lemma minimal_cover_reaches_every_follower
      (hostname : string -> string) (sort_values : Frame Z -> Frame Z)
      (input : Dict.t (list string))
      (relays_of_followers : bool) (report : RelayReport) :
  (forall df, Permutation (sort_values df) df) ->
  (forall df, sorted_desc (sort_values df)) ->
  NoDup (Dict.keys input) ->
  ~ In "Count" (Dict.keys input) ->
  get_relay_statistics hostname sort_values relays_of_followers true input = Ok report ->
  exists table,
    necessary_relays_table report = Some table /\
    (forall pub urls u,
        In (pub, urls) input -> In u urls ->
        exists r, In r (map fst table) /\ uses hostname r urls = true).
Proof.
  intros Hp Hs Hk Hc Hrun.
  destruct (@get_relay_statistics_necessary sort_values hostname input _ _ Hrun)
    as (table & Hmc & Htable).
  exists table. split; [exact Htable|].
  destruct (@minimal_cover_table sort_values Hp Hs hostname input Hk Hc table Hmc)
    as (selected & relay & values & rest & _ & Hinv & Hle & _ & ->).
  intros pub urls u Hin Hu.
  destruct (@cover_loop_exit_covers hostname input Hk Hc selected _ relay values rest
              Hinv eq_refl Hle pub urls (hostname u) Hin) as (s & Hs' & Huses).
  - apply existsb_eqb_In. now apply in_map.
  - exists s. split; [|exact Huses]. rewrite map_map. simpl. now rewrite map_id.
Qed.



(** C2, as stated, fails: with the followers [overlapping_followers]
    (no two relays share a count at any step, so the order of the sort is
    determined) the second selected relay newly covers one follower, yet
    its entry shows 2, the number of followers that use it. *)
Lemma necessary_relays_table_not_incremental :
  get_relay_statistics strip_scheme stable_sort false true overlapping_followers =
    Ok {| relays_of_followers_table := None;
          necessary_relays_table := Some [("r1", 3); ("r2", 2)] |} /\
  newly_covered strip_scheme overlapping_followers ["r1"] "r2" = 1 /\
  usage_count strip_scheme overlapping_followers "r2" = 2.
Proof.
  repeat split; reflexivity.
Qed.

(** C2 (amended): whenever [get_relay_statistics] returns, the table of
    necessary relays lists the selected relays in the order in which the
    greedy loop selected them, and each entry shows the relay's total
    usage count in the initial matrix (the number of followers that use
    the relay), not the followers newly covered at that step. *)
Theorem necessary_relays_table_reports_usage
        (hostname : string -> string) (sort_values : Frame Z -> Frame Z)
        (input : Dict.t (list string))
        (relays_of_followers : bool) (report : RelayReport) :
  (forall df, Permutation (sort_values df) df) ->
  (forall df, sorted_desc (sort_values df)) ->
  NoDup (Dict.keys input) ->
  ~ In "Count" (Dict.keys input) ->
  get_relay_statistics hostname sort_values relays_of_followers true input = Ok report ->
  let df := usage_frame hostname sort_values input in
  necessary_relays_table report =
  Some (map (fun r => (r, usage_count hostname input r))
            (selection sort_values (S (List.length df)) df)).
Proof.
  intros Hp Hs Hk Hc Hrun df.
  destruct (@get_relay_statistics_necessary sort_values hostname input _ _ Hrun)
    as (table & Hmc & Htable).
  rewrite Htable.
  destruct (@minimal_cover_table sort_values Hp Hs hostname input Hk Hc table Hmc)
    as (selected & relay & values & rest & _ & _ & _ & Hsel & ->).
  now rewrite Hsel.
Qed.

Lemma necessary_relays_table_reports_usage_witness :
  NoDup (Dict.keys example_followers) /\
  ~ In "Count" (Dict.keys example_followers) /\
  get_relay_statistics strip_scheme stable_sort false true example_followers =
    Ok {| relays_of_followers_table := None;
          necessary_relays_table := Some [("r2", 2); ("r3", 1)] |} /\
  Some [("r2", 2); ("r3", 1)] =
  Some (map (fun r => (r, usage_count strip_scheme example_followers r))
            (selection stable_sort
               (S (List.length (usage_frame strip_scheme stable_sort example_followers)))
               (usage_frame strip_scheme stable_sort example_followers))).
Proof.
  assert (Hk : NoDup (Dict.keys example_followers)).
  { simpl. repeat constructor; simpl; intuition discriminate. }
  assert (Hc : ~ In "Count" (Dict.keys example_followers)).
  { simpl. intuition discriminate. }
  assert (Hrun : get_relay_statistics strip_scheme stable_sort false true
                                      example_followers =
                 Ok {| relays_of_followers_table := None;
                       necessary_relays_table := Some [("r2", 2); ("r3", 1)] |})
    by reflexivity.
  split; [exact Hk|]. split; [exact Hc|]. split; [exact Hrun|].
  exact (@necessary_relays_table_reports_usage strip_scheme stable_sort example_followers
           false _ stable_sort_perm stable_sort_sorted Hk Hc Hrun).
Defined.

(** C1 at the failing input: for a single follower on a single relay
    (and the table of relays of followers off) the computation selects the
    relay and then raises [IndexError], whatever the sort does with equal
    counts, so no cover of the follower [A] is returned; with that table
    on, [ValueError] is raised for its height before the loop is reached.
    On the followers of the specification's example the computation
    returns the relays r2 and r3, whose followers are A, B and C. *)
Theorem minimal_cover_raises_when_every_relay_is_selected
        (sort_values : Frame Z -> Frame Z) :
  (forall df, Permutation (sort_values df) df) ->
  (forall df, sorted_desc (sort_values df)) ->
  get_relay_statistics strip_scheme sort_values false true single_follower =
    Raise IndexError /\
  get_relay_statistics strip_scheme sort_values true true single_follower =
    Raise ValueError /\
  selection sort_values 2 (usage_frame strip_scheme sort_values single_follower) = ["r1"] /\
  followers_of strip_scheme single_follower "r1" = ["A"] /\
  get_relay_statistics strip_scheme sort_values false true example_followers =
    Ok {| relays_of_followers_table := None;
          necessary_relays_table := Some [("r2", 2); ("r3", 1)] |} /\
  (followers_of strip_scheme example_followers "r2" ++
   followers_of strip_scheme example_followers "r3")%list = ["A"; "B"; "C"].
Proof.
  intros Hp Hs.
  destruct (@single_follower_statistics sort_values Hp) as (H1 & H2 & H3).
  split; [exact H1|]. split; [exact H2|]. split; [exact H3|].
  split; [reflexivity|]. split; [|reflexivity].
  apply (@example_followers_statistics sort_values Hp Hs).
Qed.

Lemma minimal_cover_raises_when_every_relay_is_selected_witness :
  (forall df, Permutation (stable_sort df) df) /\
  (forall df, sorted_desc (stable_sort df)) /\
  get_relay_statistics strip_scheme stable_sort false true single_follower =
    Raise IndexError.
Proof.
  split; [exact stable_sort_perm|]. split; [exact stable_sort_sorted|].
  exact (proj1 (@minimal_cover_raises_when_every_relay_is_selected
                  stable_sort stable_sort_perm stable_sort_sorted)).
Defined.

(** * Further properties of the client *)

(** ** Runs of [get_notes] *)
Section NotesRuns.

Variable f : Filters.

Lemma get_notes_loop_inv (n : nat) (rounds : list Round) :
  forall (e : nat) (ev events : Dict.t Event) (w w' : World),
    get_notes_loop f n e ev rounds w = Ok (events, w') ->
    (below_quorum e n = false /\ events = ev /\ w' = w) \/
    (below_quorum e n = true /\
     exists before r after,
       rounds = (before ++ r :: after)%list /\
       Forall (fun r' => below_quorum (eose r') n = true) before /\
       below_quorum (eose r) n = false /\
       events = drain_events (event_msgs r) Dict.empty /\
       w' = after_rounds f (S (List.length before)) w).
Proof.
  induction rounds as [|r rest IH]; intros e ev events w w' Hrun;
    simpl in Hrun; destruct (below_quorum e n) eqn:He;
    try discriminate Hrun; try (left; injection Hrun as <- <-; now auto).
  right. split; [reflexivity|].
  apply IH in Hrun. destruct Hrun as [(Hq & -> & ->) | (Hq & before & r' & after & -> & Hb & Hr & -> & ->)].
  - exists [], r, rest. repeat split; auto.
    cbn [List.length]. rewrite <- (after_rounds_step f 0 r w), after_rounds_0.
    reflexivity.
  - exists (r :: before), r', after. repeat split; auto.
    cbn [List.length]. rewrite <- (after_rounds_step f (S (List.length before)) r w).
    reflexivity.
Qed.


End NotesRuns.

(** X1: every run of [get_notes] that returns has one of two shapes: no
    relay, no pass and the empty mapping; or the rounds before the last
    consumed one all below the quorum, the last one at the quorum, and the
    mapping drained from that last round alone. *)
Theorem get_notes_success_shape (f : Filters) (w w' : World) (events : Dict.t Event) :
  get_notes f w = Ok (events, w') ->
  (relays w = [] /\ events = Dict.empty /\ w' = w) \/
  (exists before r after,
      network w = (before ++ r :: after)%list /\
      Forall (fun r' => (2 * eose r' < List.length (relays w))%nat) before /\
      (2 * eose r >= List.length (relays w))%nat /\
      events = drain_events (event_msgs r) Dict.empty /\
      w' = after_rounds f (S (List.length before)) w).
Proof.
  intros Hrun. unfold get_notes in Hrun. apply get_notes_loop_inv in Hrun.
  destruct Hrun as [(Hq & -> & ->) | (_ & before & r & after & Hnet & Hb & Hr & -> & ->)].
  - left. unfold below_quorum in Hq. apply Nat.ltb_ge in Hq.
    destruct (relays w); [auto | simpl in Hq; lia].
  - right. exists before, r, after. repeat split; auto.
    + eapply Forall_impl; [|exact Hb]. intros a Ha. now apply Nat.ltb_lt.
    + unfold below_quorum in Hr. now apply Nat.ltb_ge in Hr.
Qed.

Lemma get_notes_success_shape_witness :
  get_notes no_filters four_relays =
    Ok (drain_events [arrival_1] Dict.empty, after_rounds no_filters 1 four_relays) /\
  ((relays four_relays = [] /\ drain_events [arrival_1] Dict.empty = Dict.empty /\
    after_rounds no_filters 1 four_relays = four_relays) \/
   (exists before r after,
       network four_relays = (before ++ r :: after)%list /\
       Forall (fun r' => (2 * eose r' < List.length (relays four_relays))%nat) before /\
       (2 * eose r >= List.length (relays four_relays))%nat /\
       drain_events [arrival_1] Dict.empty = drain_events (event_msgs r) Dict.empty /\
       after_rounds no_filters 1 four_relays =
         after_rounds no_filters (S (List.length before)) four_relays)).
Proof.
  assert (H : get_notes no_filters four_relays =
              Ok (drain_events [arrival_1] Dict.empty,
                  after_rounds no_filters 1 four_relays)) by reflexivity.
  split; [exact H|].
  exact (@get_notes_success_shape no_filters four_relays _ _ H).
Defined.



(** ** Draining twice *)
Section DrainTwice.

Lemma dict_ext {V : Type} (d1 : Dict.t V) :
  forall d2 : Dict.t V,
    Dict.keys d1 = Dict.keys d2 ->
    NoDup (Dict.keys d1) ->
    (forall k, Dict.get k d1 = Dict.get k d2) ->
    d1 = d2.
Proof.
  induction d1 as [|[k v] d1 IH]; intros [|[k' v'] d2] Hkeys Hnd Hget;
    try discriminate Hkeys; [reflexivity|].
  simpl in Hkeys. injection Hkeys as <- Hkeys.
  inversion Hnd as [|? ? Hnot Hnd']; subst.
  pose proof (Hget k) as Hk. simpl in Hk. rewrite String.eqb_refl in Hk.
  injection Hk as <-. f_equal. apply IH; [exact Hkeys | exact Hnd' |].
  intros k0. specialize (Hget k0). simpl in Hget.
  destruct (String.eqb k k0) eqn:E; [|exact Hget].
  apply String.eqb_eq in E. subst k0.
  transitivity (@None V).
  - now apply DictFacts.get_None_keys.
  - symmetry. apply DictFacts.get_None_keys. now rewrite <- Hkeys.
Qed.

Lemma drain_events_keys_present (msgs : list Event) :
  forall events : Dict.t Event,
    (forall m, In m msgs -> Dict.get (id m) events <> None) ->
    Dict.keys (drain_events msgs events) = Dict.keys events.
Proof.
  unfold drain_events.
  induction msgs as [|m msgs IH]; intros events H; simpl; [reflexivity|].
  rewrite IH.
  - apply DictFacts.keys_set_present. apply H. now left.
  - intros m' Hm'. apply get_set_mono. apply H. now right.
Qed.

Lemma last_arrival_found (msgs : list Event) (m : Event) :
  In m msgs -> last_arrival (id m) msgs <> None.
Proof.
  intros Hin Hnone. unfold last_arrival in Hnone.
  apply find_none with (x := m) in Hnone; [|now apply in_rev in Hin].
  now rewrite String.eqb_refl in Hnone.
Qed.

End DrainTwice.

(** X3: draining the same event messages a second time into the map they
    were drained into changes nothing: the merge by event id is
    idempotent. *)
Theorem drain_events_idempotent (msgs : list Event) :
  drain_events msgs (drain_events msgs Dict.empty) = drain_events msgs Dict.empty.
Proof.
  assert (Hnd : NoDup (Dict.keys (drain_events msgs Dict.empty)))
    by (apply drain_events_NoDup; constructor).
  assert (Hkeys : Dict.keys (drain_events msgs (drain_events msgs Dict.empty)) =
                  Dict.keys (drain_events msgs Dict.empty)).
  { apply drain_events_keys_present. intros m Hm.
    rewrite drain_events_get. pose proof (last_arrival_found msgs m Hm).
    destruct (last_arrival (id m) msgs); congruence. }
  apply dict_ext; [exact Hkeys | now rewrite Hkeys |].
  intros k. rewrite !drain_events_get.
  destruct (last_arrival k msgs); reflexivity.
Qed.

(** ** Relay-list resolution *)
Section Resolution.

Lemma latest_step_empty (rpu : Dict.t Event) (e : Event) :
  (0 <? String.length (content e))%nat = false -> latest_step rpu e = rpu.
Proof.
  intros H. unfold latest_step. rewrite H. now rewrite andb_false_r.
Qed.

Lemma latest_fold_skips_empty (events : Dict.t Event) :
  forall rpu,
    fold_left latest_step (Dict.values events) rpu =
    fold_left latest_step
              (Dict.values (filter (fun kv => (0 <? String.length (content (snd kv)))%nat)
                                   events)) rpu.
Proof.
  induction events as [|[k e] events IH]; intros rpu; simpl; [reflexivity|].
  destruct (0 <? String.length (content e))%nat eqn:E; simpl.
  - apply IH.
  - rewrite latest_step_empty by exact E. apply IH.
Qed.

(** The authors that have a representative are those with an event of
    non-empty content. *)
Lemma latest_per_author_keys (events : Dict.t Event) (a : string) :
  In a (Dict.keys (latest_per_author events)) <->
  exists e, In e (Dict.values events) /\ pubkey e = a /\ content e <> "".
Proof.
  destruct (latest_per_author_inv events) as [Hsome Hnone]. split.
  - intros Hin. destruct (Dict.get a (latest_per_author events)) as [rep|] eqn:Hget.
    + destruct (Hsome a rep Hget) as (before & after & Hsplit & Hpk & Hc & _).
      exists rep. split; [|auto]. rewrite Hsplit. apply in_or_app. right. now left.
    + apply DictFacts.get_None_keys in Hget. contradiction.
  - intros (e & Hin & Hpk & Hc). apply DictFacts.get_None_keys'.
    intros Hget. apply Hc. now apply (Hnone a Hget e).
Qed.

Variable json_loads : string -> option PyValue.

Lemma decode_relays_inv (l : list (string * Event)) :
  forall out output,
    NoDup (Dict.keys out ++ Dict.keys l) ->
    decode_relays json_loads l out = Ok output ->
    Dict.keys output = (Dict.keys out ++ Dict.keys l)%list /\
    (forall a rep, In (a, rep) l ->
                   exists ks, decode_content json_loads rep = Ok ks /\
                              Dict.get a output = Some ks) /\
    (forall a, ~ In a (Dict.keys l) -> Dict.get a output = Dict.get a out).
Proof.
  induction l as [|[pub e] l IH]; intros out output Hnd Hrun; simpl in Hrun.
  - injection Hrun as <-. simpl. rewrite app_nil_r. repeat split; auto. intros a rep [].
  - destruct (decode_content json_loads e) as [ks| |] eqn:Hd; try discriminate Hrun.
    cbn [bind] in Hrun.
    assert (Habs : Dict.get pub out = None).
    { apply DictFacts.get_None_keys. intros Hin.
      apply NoDup_remove_2 in Hnd. apply Hnd. apply in_or_app. now left. }
    assert (Hnd' : NoDup (Dict.keys (Dict.set pub ks out) ++ Dict.keys l)).
    { rewrite DictFacts.set_absent by exact Habs.
      unfold Dict.keys in *. rewrite map_app. simpl. rewrite <- app_assoc. exact Hnd. }
    destruct (IH _ _ Hnd' Hrun) as (Hkeys & Hin & Hout).
    assert (Hpub : ~ In pub (Dict.keys l)).
    { intros Hl. apply NoDup_remove_2 in Hnd. apply Hnd. apply in_or_app. now right. }
    split; [|split].
    + rewrite Hkeys, DictFacts.set_absent by exact Habs.
      unfold Dict.keys. rewrite map_app. simpl. now rewrite <- app_assoc.
    + intros a rep [Heq|Hl].
      * injection Heq as <- <-. exists ks. split; [exact Hd|].
        rewrite (Hout pub Hpub). apply DictFacts.get_set_same.
      * now apply Hin.
    + intros a Ha. rewrite Hout by (intros H; apply Ha; now right).
      apply DictFacts.get_set_other. intros ->. apply Ha. now left.
Qed.

Lemma relays_of_events_inv (events : Dict.t Event) (output : Dict.t (list string)) :
  relays_of_events json_loads events = Ok output ->
  Dict.keys output = Dict.keys (latest_per_author events) /\
  (forall a rep, Dict.get a (latest_per_author events) = Some rep ->
                 exists ks, decode_content json_loads rep = Ok ks /\
                            Dict.get a output = Some ks).
Proof.
  intros Hrun. unfold relays_of_events in Hrun.
  apply decode_relays_inv in Hrun.
  - destruct Hrun as (Hkeys & Hin & _). split; [exact Hkeys|].
    intros a rep Hget. apply Hin. now apply DictFacts.get_Some_In.
  - simpl. apply latest_fold_NoDup. constructor.
Qed.

Lemma following_of_fold (l : list Event) :
  forall acc,
    (forall a, In a (fold_left (fun following event => set_add (pubkey event) following)
                               l acc) <->
               (exists e, In e l /\ pubkey e = a) \/ In a acc) /\
    (NoDup acc ->
     NoDup (fold_left (fun following event => set_add (pubkey event) following) l acc)).
Proof.
  clear json_loads.
  induction l as [|e l IH]; intros acc; simpl.
  - split; [|auto]. intros a. split; [tauto|]. intros [(e & [] & _)|H]; exact H.
  - destruct (IH (set_add (pubkey e) acc)) as [HIn Hnd]. split.
    + intros a. rewrite HIn, set_add_In. split.
      * intros [(e' & He' & Hpk)|[->|Ha]].
        -- left. exists e'. split; [now right | exact Hpk].
        -- left. exists e. split; [now left | reflexivity].
        -- now right.
      * intros [(e' & [<-|He'] & Hpk)|Ha].
        -- right. left. now symmetry.
        -- left. now exists e'.
        -- right. now right.
    + intros H. apply Hnd, set_add_NoDup, H.
Qed.

End Resolution.

(** X4: events with empty content have no influence on the latest-event
    resolution: removing them from the aggregated events beforehand gives
    the same representatives. *)
Theorem latest_per_author_ignores_empty_content (events : Dict.t Event) :
  latest_per_author events =
  latest_per_author
    (filter (fun kv => (0 <? String.length (content (snd kv)))%nat) events).
Proof.
  unfold latest_per_author. apply latest_fold_skips_empty.
Qed.

(** X5: when the relay-list resolution returns, its mapping has one key
    per author, the keys are exactly the authors with at least one event
    of non-empty content, and the value under an author is the key list
    decoded from that author's representative event. *)
Theorem relays_of_events_keys
        (json_loads : string -> option PyValue)
        (events : Dict.t Event) (output : Dict.t (list string)) :
  relays_of_events json_loads events = Ok output ->
  NoDup (Dict.keys output) /\
  (forall a, In a (Dict.keys output) <->
             exists e, In e (Dict.values events) /\ pubkey e = a /\ content e <> "") /\
  (forall a rep, Dict.get a (latest_per_author events) = Some rep ->
                 exists items, json_loads (content rep) = Some (PyDict items) /\
                               Dict.get a output = Some (map fst items)).
Proof.
  intros Hrun. destruct (relays_of_events_inv _ _ Hrun) as [Hkeys Hin].
  split; [|split].
  - rewrite Hkeys. apply latest_fold_NoDup. constructor.
  - intros a. rewrite Hkeys. apply latest_per_author_keys.
  - intros a rep Hget. destruct (Hin a rep Hget) as (ks & Hd & Hout).
    destruct (decode_content_cases json_loads rep) as [(items & Hj & Hd') | (exn & Hd')];
      [|congruence].
    exists items. split; [exact Hj|]. congruence.
Qed.

Lemma relays_of_events_keys_witness :
  relays_of_events json_stub [("a", bob_100); ("b", bob_200_empty)] = Ok [("bob", [])] /\
  NoDup (Dict.keys [("bob", @nil string)]).
Proof.
  assert (H : relays_of_events json_stub [("a", bob_100); ("b", bob_200_empty)] =
              Ok [("bob", [])]) by reflexivity.
  split; [exact H|].
  exact (proj1 (@relays_of_events_keys json_stub _ _ H)).
Defined.

(** X6: when [get_follower_and_their_relays] returns, the list of
    followers has no duplicate and holds exactly the authors of the
    aggregated events, while the relay mapping has a key only for the
    followers with an event of non-empty content; so every key of the
    mapping is a follower, and a follower whose events all have empty
    content has no relay list. *)
Theorem get_follower_and_their_relays_result
        (from_npub : string -> Outcome string) (json_loads : string -> option PyValue)
        (npub : string) (w w' : World)
        (following : list string) (output : Dict.t (list string)) :
  get_follower_and_their_relays from_npub json_loads npub w =
    Ok (following, output, w') ->
  exists npub_hex events,
    hex_from_npub from_npub npub = Ok npub_hex /\
    get_notes {| kinds := [CONTACTS]; authors := []; pubkey_refs := [npub_hex] |} w =
      Ok (events, w') /\
    NoDup following /\
    (forall a, In a following <-> exists e, In e (Dict.values events) /\ pubkey e = a) /\
    (forall a, In a (Dict.keys output) <->
               exists e, In e (Dict.values events) /\ pubkey e = a /\ content e <> "") /\
    incl (Dict.keys output) following.
Proof.
  intros Hrun. unfold get_follower_and_their_relays in Hrun.
  destruct (hex_from_npub from_npub npub) as [npub_hex| |] eqn:Hhex; try discriminate Hrun.
  cbn [bind] in Hrun.
  destruct (get_notes _ w) as [[events w1]| |] eqn:Hnotes; try discriminate Hrun.
  cbn [bind] in Hrun.
  destruct (relays_of_events json_loads events) as [out| |] eqn:Hrel; try discriminate Hrun.
  cbn [bind] in Hrun. injection Hrun as <- <- <-.
  exists npub_hex, events. split; [reflexivity|]. split; [exact Hnotes|].
  destruct (following_of_fold (Dict.values events) []) as [HIn Hnd].
  assert (Hkeys : forall a, In a (Dict.keys out) <->
                            exists e, In e (Dict.values events) /\ pubkey e = a /\
                                      content e <> "").
  { intros a. rewrite (proj1 (relays_of_events_inv _ _ Hrel)).
    apply latest_per_author_keys. }
  assert (Hfol : forall a, In a (following_of events) <->
                           exists e, In e (Dict.values events) /\ pubkey e = a).
  { intros a. unfold following_of. rewrite HIn. simpl. tauto. }
  split; [apply Hnd; constructor|]. split; [exact Hfol|]. split; [exact Hkeys|].
  intros a Ha. apply Hfol. apply Hkeys in Ha. destruct Ha as (e & He & Hpk & _). eauto.
Qed.

Lemma get_follower_and_their_relays_result_witness :
  get_follower_and_their_relays npub_stub json_stub "abc" contacts_relay =
    Ok (["bob"; "erin"], [("bob", [])],
        after_rounds {| kinds := [CONTACTS]; authors := []; pubkey_refs := ["abc"] |}
                     1 contacts_relay) /\
  NoDup ["bob"; "erin"] /\
  incl (Dict.keys [("bob", @nil string)]) ["bob"; "erin"].
Proof.
  assert (H : get_follower_and_their_relays npub_stub json_stub "abc" contacts_relay =
              Ok (["bob"; "erin"], [("bob", [])],
                  after_rounds {| kinds := [CONTACTS]; authors := [];
                                  pubkey_refs := ["abc"] |} 1 contacts_relay))
    by reflexivity.
  split; [exact H|].
  destruct (@get_follower_and_their_relays_result npub_stub json_stub "abc" contacts_relay
                                                  _ _ _ H)
    as (npub_hex & events & _ & _ & Hnd & _ & _ & Hincl).
  split; [exact Hnd | exact Hincl].
Defined.

(** ** The identity's own relays *)
Section OwnRelays.

Variable from_npub : string -> Outcome string.
Variable json_loads : string -> option PyValue.

Lemma get_own_relays_unfold (npub npub_hex : string) (events : Dict.t Event) (w w' : World) :
  hex_from_npub from_npub npub = Ok npub_hex ->
  get_notes {| kinds := [CONTACTS]; authors := [npub_hex]; pubkey_refs := [] |} w =
    Ok (events, w') ->
  get_own_relays from_npub json_loads npub w =
  (output <- relays_of_events json_loads events ;;
   own <- Dict.item npub_hex output ;;
   Ok (own, w')).
Proof.
  intros Hhex Hnotes. unfold get_own_relays, get_relays.
  rewrite Hhex. cbn [bind]. rewrite Hnotes. cbn [bind].
  now destruct (relays_of_events json_loads events).
Qed.

Lemma get_map_values {A B : Type} (g : A -> B) (k : string) (d : Dict.t A) :
  Dict.get k (map (fun '(a, x) => (a, g x)) d) = option_map g (Dict.get k d).
Proof.
  clear from_npub json_loads.
  induction d as [|[a x] d IH]; simpl; [reflexivity|].
  destruct (String.eqb a k); [reflexivity | exact IH].
Qed.

(** When every representative decodes, the resolution returns the
    decoded keys of each. *)
Lemma relays_of_events_all_decode (events : Dict.t Event) :
  (forall a rep, Dict.get a (latest_per_author events) = Some rep ->
                 exists items, json_loads (content rep) = Some (PyDict items)) ->
  exists output,
    relays_of_events json_loads events = Ok output /\
    forall a, Dict.get a output =
              option_map (decoded_keys json_loads) (Dict.get a (latest_per_author events)).
Proof.
  clear from_npub.
  intros Hall.
  assert (Hnd : NoDup (Dict.keys (latest_per_author events)))
    by (apply latest_fold_NoDup; constructor).
  eexists. split.
  - unfold relays_of_events. rewrite decode_relays_success.
    + reflexivity.
    + exact Hnd.
    + intros a rep Hin. apply (Hall a rep). now apply DictFacts.In_get_NoDup.
  - intros a. simpl. apply get_map_values.
Qed.

End OwnRelays.

(** X7: if the aggregated events hold an event of the identity with
    non-empty content and every representative event decodes to a JSON
    object, [get_own_relays] returns the keys of the identity's
    representative (its latest event with non-empty content). *)
Theorem get_own_relays_returns_latest
        (from_npub : string -> Outcome string) (json_loads : string -> option PyValue)
        (npub npub_hex : string) (events : Dict.t Event) (w w' : World) (rep : Event) :
  hex_from_npub from_npub npub = Ok npub_hex ->
  get_notes {| kinds := [CONTACTS]; authors := [npub_hex]; pubkey_refs := [] |} w =
    Ok (events, w') ->
  Dict.get npub_hex (latest_per_author events) = Some rep ->
  (forall a rep', Dict.get a (latest_per_author events) = Some rep' ->
                  exists items, json_loads (content rep') = Some (PyDict items)) ->
  get_own_relays from_npub json_loads npub w = Ok (decoded_keys json_loads rep, w').
Proof.
  intros Hhex Hnotes Hrep Hall.
  rewrite (@get_own_relays_unfold from_npub json_loads npub npub_hex events w w'
                                  Hhex Hnotes).
  destruct (@relays_of_events_all_decode json_loads events Hall) as (output & Hrun & Hget).
  rewrite Hrun. cbn [bind]. unfold Dict.item. rewrite Hget, Hrep. reflexivity.
Qed.

Lemma get_own_relays_returns_latest_witness :
  hex_from_npub npub_stub "abc" = Ok "abc" /\
  Dict.get "abc" (latest_per_author [("p", own_100); ("q", own_200)]) = Some own_200 /\
  get_own_relays npub_stub json_stub_relays "abc" own_relays_relay =
    Ok (["wss://r1"],
        after_rounds {| kinds := [CONTACTS]; authors := ["abc"]; pubkey_refs := [] |}
                     1 own_relays_relay).
Proof.
  assert (Hhex : hex_from_npub npub_stub "abc" = Ok "abc") by reflexivity.
  assert (Hnotes :
            get_notes {| kinds := [CONTACTS]; authors := ["abc"]; pubkey_refs := [] |}
                      own_relays_relay =
            Ok ([("p", own_100); ("q", own_200)],
                after_rounds {| kinds := [CONTACTS]; authors := ["abc"];
                                pubkey_refs := [] |} 1 own_relays_relay))
    by reflexivity.
  assert (Hrep : Dict.get "abc" (latest_per_author [("p", own_100); ("q", own_200)])
                 = Some own_200) by reflexivity.
  assert (Hall : forall a rep',
             Dict.get a (latest_per_author [("p", own_100); ("q", own_200)]) = Some rep' ->
             exists items, json_stub_relays (content rep') = Some (PyDict items)).
  { intros a rep'.
    change (latest_per_author [("p", own_100); ("q", own_200)]) with [("abc", own_200)].
    cbn [Dict.get]. destruct (String.eqb "abc" a); intros H;
      [injection H as <-; eexists; reflexivity | discriminate H]. }
  split; [exact Hhex|]. split; [exact Hrep|].
  exact (@get_own_relays_returns_latest npub_stub json_stub_relays "abc" "abc" _
           own_relays_relay _ own_200 Hhex Hnotes Hrep Hall).
Defined.

(** X8: if no aggregated event of the identity has non-empty content
    (no event at all, events of other authors only, or own events with
    empty content), [get_own_relays] never returns a relay list; when the
    events of the other authors decode, it raises [KeyError] on the
    identity. *)
Theorem get_own_relays_missing_identity
        (from_npub : string -> Outcome string) (json_loads : string -> option PyValue)
        (npub npub_hex : string) (events : Dict.t Event) (w w' : World) :
  hex_from_npub from_npub npub = Ok npub_hex ->
  get_notes {| kinds := [CONTACTS]; authors := [npub_hex]; pubkey_refs := [] |} w =
    Ok (events, w') ->
  (forall e, In e (Dict.values events) -> pubkey e = npub_hex -> content e = "") ->
  (forall result, get_own_relays from_npub json_loads npub w <> Ok result) /\
  ((forall a rep, Dict.get a (latest_per_author events) = Some rep ->
                  exists items, json_loads (content rep) = Some (PyDict items)) ->
   get_own_relays from_npub json_loads npub w = Raise (KeyError npub_hex)).
Proof.
  intros Hhex Hnotes Hempty.
  rewrite (@get_own_relays_unfold from_npub json_loads npub npub_hex events w w'
                                  Hhex Hnotes).
  assert (Hnone : Dict.get npub_hex (latest_per_author events) = None).
  { apply DictFacts.get_None_keys. intros Hin. apply latest_per_author_keys in Hin.
    destruct Hin as (e & He & Hpk & Hc). apply Hc. now apply Hempty. }
  split.
  - intros result.
    destruct (relays_of_events json_loads events) as [output| |] eqn:Hrun;
      cbn [bind]; try discriminate.
    destruct (relays_of_events_inv _ _ Hrun) as [Hkeys _].
    assert (Hout : Dict.get npub_hex output = None).
    { apply DictFacts.get_None_keys. rewrite Hkeys.
      now apply DictFacts.get_None_keys. }
    unfold Dict.item. rewrite Hout. discriminate.
  - intros Hall.
    destruct (@relays_of_events_all_decode json_loads events Hall) as (output & Hrun & Hget).
    rewrite Hrun. cbn [bind]. unfold Dict.item. rewrite Hget, Hnone. reflexivity.
Qed.

Lemma get_own_relays_missing_identity_witness :
  hex_from_npub npub_stub "erin" = Ok "erin" /\
  (forall e, In e (Dict.values [("a", bob_100); ("e", erin_empty)]) ->
             pubkey e = "erin" -> content e = "") /\
  get_own_relays npub_stub json_stub "erin" contacts_relay = Raise (KeyError "erin").
Proof.
  assert (Hhex : hex_from_npub npub_stub "erin" = Ok "erin") by reflexivity.
  assert (Hnotes :
            get_notes {| kinds := [CONTACTS]; authors := ["erin"]; pubkey_refs := [] |}
                      contacts_relay =
            Ok ([("a", bob_100); ("e", erin_empty)],
                after_rounds {| kinds := [CONTACTS]; authors := ["erin"];
                                pubkey_refs := [] |} 1 contacts_relay))
    by reflexivity.
  assert (Hempty : forall e, In e (Dict.values [("a", bob_100); ("e", erin_empty)]) ->
                             pubkey e = "erin" -> content e = "").
  { simpl. intros e [<-|[<-|[]]]; [discriminate | reflexivity]. }
  assert (Hall : forall a rep,
             Dict.get a (latest_per_author [("a", bob_100); ("e", erin_empty)]) = Some rep ->
             exists items, json_stub (content rep) = Some (PyDict items)).
  { intros a rep.
    change (latest_per_author [("a", bob_100); ("e", erin_empty)]) with [("bob", bob_100)].
    cbn [Dict.get]. destruct (String.eqb "bob" a); intros H;
      [injection H as <-; eexists; reflexivity | discriminate H]. }
  split; [exact Hhex|]. split; [exact Hempty|].
  exact (proj2 (@get_own_relays_missing_identity npub_stub json_stub "erin" "erin" _
                  contacts_relay _ Hhex Hnotes Hempty) Hall).
Defined.

(** X9: if every aggregated event is authored by the queried identity
    itself (or there is none), [get_notifications] raises [KeyError] on
    the column [created_at] instead of returning an empty frame. *)
Theorem get_notifications_only_own_raises
        (from_npub : string -> Outcome string) (datetime_in_bounds : Z -> bool)
        (npub npub_hex : string) (events : Dict.t Event) (w w' : World) :
  hex_from_npub from_npub npub = Ok npub_hex ->
  get_notes (notification_filters npub_hex) w = Ok (events, w') ->
  (forall e, In e (Dict.values events) -> pubkey e = npub_hex) ->
  get_notifications from_npub datetime_in_bounds npub w = Raise (KeyError "created_at").
Proof.
  intros Hhex Hnotes Hown. unfold get_notifications. rewrite Hhex. cbn [bind].
  unfold notification_filters in Hnotes. rewrite Hnotes. cbn [bind].
  rewrite notifications_frame_rows.
  assert (Hnil : filter (fun event => negb (String.eqb (pubkey event) npub_hex))
                        (Dict.values events) = []).
  { induction (Dict.values events) as [|e l IH]; [reflexivity|].
    simpl. rewrite (Hown e (or_introl eq_refl)), String.eqb_refl. simpl.
    apply IH. intros e' He'. apply Hown. now right. }
  now rewrite Hnil.
Qed.

Lemma get_notifications_only_own_raises_witness :
  hex_from_npub npub_stub "abc" = Ok "abc" /\
  get_notes (notification_filters "abc") own_only_relay =
    Ok ([("o", own_note)], after_rounds (notification_filters "abc") 1 own_only_relay) /\
  (forall e, In e (Dict.values [("o", own_note)]) -> pubkey e = "abc") /\
  get_notifications npub_stub in_bounds_stub "abc" own_only_relay =
    Raise (KeyError "created_at").
Proof.
  assert (Hhex : hex_from_npub npub_stub "abc" = Ok "abc") by reflexivity.
  assert (Hnotes : get_notes (notification_filters "abc") own_only_relay =
                   Ok ([("o", own_note)],
                       after_rounds (notification_filters "abc") 1 own_only_relay))
    by reflexivity.
  assert (Hown : forall e, In e (Dict.values [("o", own_note)]) -> pubkey e = "abc").
  { simpl. intros e [<-|[]]. reflexivity. }
  split; [exact Hhex|]. split; [exact Hnotes|]. split; [exact Hown|].
  exact (@get_notifications_only_own_raises npub_stub in_bounds_stub "abc" "abc" _
           own_only_relay _ Hhex Hnotes Hown).
Defined.

(** ** The tables of the relay report *)

(** X10: with the table of relays of followers on, the statistics raise
    [ValueError] when the input has fewer than ten relay hosts (the height
    given to the figure is the number of rows); when they return, the
    table has at least ten rows and lists every relay host used by some
    follower exactly once, with the number of followers that use it (at
    least 1, at most the number of followers), in descending order of that
    number. *)
Theorem relays_of_followers_table_counts
        (hostname : string -> string) (sort_values : Frame Z -> Frame Z)
        (input : Dict.t (list string)) (necessary_relays : bool) :
  (forall df, Permutation (sort_values df) df) ->
  (forall df, sorted_desc (sort_values df)) ->
  NoDup (Dict.keys input) ->
  ~ In "Count" (Dict.keys input) ->
  ((List.length (usage_frame hostname sort_values input) < 10)%nat ->
   get_relay_statistics hostname sort_values true necessary_relays input =
     Raise ValueError) /\
  (forall report,
      get_relay_statistics hostname sort_values true necessary_relays input = Ok report ->
      exists table,
        relays_of_followers_table report = Some table /\
        (10 <= List.length table)%nat /\
        NoDup (map fst table) /\
        StronglySorted (fun a b : string * Z => snd b <= snd a) table /\
        (forall r c, In (r, c) table <->
                     In r (relay_hosts hostname input) /\
                     c = usage_count hostname input r) /\
        (forall r c, In (r, c) table -> 1 <= c <= Z.of_nat (List.length input))).
Proof.
  intros Hp Hs Hk Hc. split.
  { intros Hlt. unfold get_relay_statistics, relays_of_followers_section.
    rewrite length_map. apply Nat.ltb_lt in Hlt. now rewrite Hlt. }
  intros report Hrun.
  destruct (@get_relay_statistics_counts sort_values hostname input _ _ Hrun)
    as [Htable Hlen].
  exists (map (fun '(relay, cells) => (relay, count_of cells))
              (usage_frame hostname sort_values input)).
  split; [exact Htable|]. split; [now rewrite length_map|].
  split; [|split; [|split]].
  - rewrite map_map.
    assert (Heq : map (fun x : string * Dict.t Z =>
                         fst (let '(relay, cells) := x in (relay, count_of cells)))
                      (usage_frame hostname sort_values input) =
                  Dict.keys (usage_frame hostname sort_values input)).
    { unfold Dict.keys. apply map_ext. now intros [r c]. }
    rewrite Heq. now apply usage_frame_keys_NoDup.
  - apply sorted_desc_counts. unfold usage_frame. apply Hs.
  - intros r c. now apply usage_frame_counts.
  - intros r c Hin. apply usage_frame_counts in Hin; try assumption.
    destruct Hin as [Hr ->].
    destruct (usage_count_bounds hostname input r) as ([_ Hle] & Hge & _).
    split; [now apply Hge | exact Hle].
Qed.

(** Ten followers on ten relay hosts, no two of them used by the same
    number of followers. *)
Lemma relays_of_followers_table_counts_witness :
  (forall df, Permutation (stable_sort df) df) /\
  (forall df, sorted_desc (stable_sort df)) /\
  NoDup (Dict.keys ten_hosts_followers) /\
  ~ In "Count" (Dict.keys ten_hosts_followers) /\
  get_relay_statistics strip_scheme stable_sort true false ten_hosts_followers =
    Ok {| relays_of_followers_table :=
            Some [("r10", 10); ("r09", 9); ("r08", 8); ("r07", 7); ("r06", 6);
                  ("r05", 5); ("r04", 4); ("r03", 3); ("r02", 2); ("r01", 1)];
          necessary_relays_table := None |} /\
  exists table,
    Some [("r10", 10); ("r09", 9); ("r08", 8); ("r07", 7); ("r06", 6);
          ("r05", 5); ("r04", 4); ("r03", 3); ("r02", 2); ("r01", 1)] = Some table /\
    (10 <= List.length table)%nat /\
    NoDup (map fst table) /\
    StronglySorted (fun a b : string * Z => snd b <= snd a) table.
Proof.
  assert (Hk : NoDup (Dict.keys ten_hosts_followers)).
  { simpl. repeat constructor; simpl; intuition discriminate. }
  assert (Hc : ~ In "Count" (Dict.keys ten_hosts_followers)).
  { simpl. intuition discriminate. }
  assert (Hrun : get_relay_statistics strip_scheme stable_sort true false
                                      ten_hosts_followers =
                 Ok {| relays_of_followers_table :=
                         Some [("r10", 10); ("r09", 9); ("r08", 8); ("r07", 7);
                               ("r06", 6); ("r05", 5); ("r04", 4); ("r03", 3);
                               ("r02", 2); ("r01", 1)];
                       necessary_relays_table := None |}) by reflexivity.
  split; [exact stable_sort_perm|]. split; [exact stable_sort_sorted|].
  split; [exact Hk|]. split; [exact Hc|]. split; [exact Hrun|].
  destruct (proj2 (@relays_of_followers_table_counts
                     strip_scheme stable_sort ten_hosts_followers false
                     stable_sort_perm stable_sort_sorted Hk Hc) _ Hrun)
    as (table & Ht & Hlen & Hnd & Hs & _).
  exists table. auto.
Defined.

Lemma minimal_cover_reaches_every_follower_witness :
  NoDup (Dict.keys example_followers) /\
  ~ In "Count" (Dict.keys example_followers) /\
  get_relay_statistics strip_scheme stable_sort false true example_followers =
    Ok {| relays_of_followers_table := None;
          necessary_relays_table := Some [("r2", 2); ("r3", 1)] |} /\
  exists table,
    Some [("r2", 2); ("r3", 1)] = Some table /\
    (forall pub urls u,
        In (pub, urls) example_followers -> In u urls ->
        exists r, In r (map fst table) /\ uses strip_scheme r urls = true).
Proof.
  assert (Hk : NoDup (Dict.keys example_followers)).
  { simpl. repeat constructor; simpl; intuition discriminate. }
  assert (Hc : ~ In "Count" (Dict.keys example_followers)).
  { simpl. intuition discriminate. }
  assert (Hrun : get_relay_statistics strip_scheme stable_sort false true
                                      example_followers =
                 Ok {| relays_of_followers_table := None;
                       necessary_relays_table := Some [("r2", 2); ("r3", 1)] |})
    by reflexivity.
  split; [exact Hk|]. split; [exact Hc|]. split; [exact Hrun|].
  exact (@minimal_cover_reaches_every_follower strip_scheme stable_sort example_followers
           false _ stable_sort_perm stable_sort_sorted Hk Hc Hrun).
Defined.

(** X12: when the necessary-relays table is returned it is not empty,
    names no relay twice, names only relay hosts of the input, each with
    the number (at least 1) of followers that use it, and leaves out at
    least one relay host: the table is strictly shorter than the list of
    relay hosts. *)
Theorem necessary_relays_table_structure
        (hostname : string -> string) (sort_values : Frame Z -> Frame Z)
        (input : Dict.t (list string))
        (relays_of_followers : bool) (report : RelayReport) :
  (forall df, Permutation (sort_values df) df) ->
  (forall df, sorted_desc (sort_values df)) ->
  NoDup (Dict.keys input) ->
  ~ In "Count" (Dict.keys input) ->
  get_relay_statistics hostname sort_values relays_of_followers true input = Ok report ->
  exists table,
    necessary_relays_table report = Some table /\
    table <> [] /\
    NoDup (map fst table) /\
    (forall r c, In (r, c) table ->
                 In r (relay_hosts hostname input) /\
                 c = usage_count hostname input r /\ 1 <= c) /\
    (exists spare, In spare (relay_hosts hostname input) /\ ~ In spare (map fst table)) /\
    (List.length table < List.length (usage_frame hostname sort_values input))%nat.
Proof.
  intros Hp Hs Hk Hc Hrun.
  destruct (@get_relay_statistics_necessary sort_values hostname input _ _ Hrun)
    as (table & Hmc & Htable).
  exists table. split; [exact Htable|].
  destruct (@minimal_cover_table sort_values Hp Hs hostname input Hk Hc table Hmc)
    as (selected & relay & values & rest & Hloop & Hinv & Hle & Hsel & ->).
  assert (Hfst : map fst (map (fun r => (r, usage_count hostname input r))
                              (Dict.keys selected)) = Dict.keys selected).
  { rewrite map_map. simpl. apply map_id. }
  assert (Hnd : NoDup (Dict.keys selected)).
  { apply (cover_loop_keys_NoDup _ _ _ _ Hloop). constructor. }
  assert (Hhost : forall r, In r (Dict.keys selected) -> In r (relay_hosts hostname input)).
  { intros r Hr. destruct Hinv as (dropped & _ & _ & _ & _ & I5 & _).
    destruct (I5 r) as (cells0 & Hb).
    - intros Hn. apply DictFacts.get_None_keys in Hn. contradiction.
    - apply relay_hosts_rows; try assumption. apply (in_map fst) in Hb. exact Hb. }
  destruct (@cover_loop_exit_row hostname input Hk Hc selected _ relay values rest
                                 Hinv eq_refl Hle) as (_ & Hspare & Hspare_host & _).
  rewrite Hfst. split; [|split; [|split; [|split]]].
  - destruct (usage_frame hostname sort_values input) as [|[r0 v0] rest0] eqn:Hdf;
      [discriminate Hloop|].
    destruct (@selection_head sort_values Hp hostname input Hk r0 v0 rest0 Hdf)
      as (later & Hhead).
    rewrite Hdf in Hhead. rewrite Hhead in Hsel. rewrite Hsel. discriminate.
  - exact Hnd.
  - intros r c Hin. apply in_map_iff in Hin. destruct Hin as (r' & Heq & Hr').
    injection Heq as <- <-. split; [now apply Hhost|]. split; [reflexivity|].
    apply usage_count_bounds. now apply Hhost.
  - exists relay. auto.
  - rewrite length_map, (@usage_frame_length sort_values Hp hostname input Hk).
    assert (Hincl : incl (relay :: Dict.keys selected)
                         (Dict.keys (usage_matrix hostname input))).
    { intros r [<-|Hr]; apply relay_hosts_rows; auto. }
    apply NoDup_incl_length in Hincl; [simpl in Hincl; lia|].
    constructor; assumption.
Qed.

Lemma necessary_relays_table_structure_witness :
  NoDup (Dict.keys example_followers) /\
  ~ In "Count" (Dict.keys example_followers) /\
  get_relay_statistics strip_scheme stable_sort false true example_followers =
    Ok {| relays_of_followers_table := None;
          necessary_relays_table := Some [("r2", 2); ("r3", 1)] |} /\
  exists table,
    Some [("r2", 2); ("r3", 1)] = Some table /\
    table <> [] /\ NoDup (map fst table) /\
    (List.length table <
     List.length (usage_frame strip_scheme stable_sort example_followers))%nat.
Proof.
  assert (Hk : NoDup (Dict.keys example_followers)).
  { simpl. repeat constructor; simpl; intuition discriminate. }
  assert (Hc : ~ In "Count" (Dict.keys example_followers)).
  { simpl. intuition discriminate. }
  assert (Hrun : get_relay_statistics strip_scheme stable_sort false true
                                      example_followers =
                 Ok {| relays_of_followers_table := None;
                       necessary_relays_table := Some [("r2", 2); ("r3", 1)] |})
    by reflexivity.
  split; [exact Hk|]. split; [exact Hc|]. split; [exact Hrun|].
  destruct (@necessary_relays_table_structure strip_scheme stable_sort example_followers
              false _ stable_sort_perm stable_sort_sorted Hk Hc Hrun)
    as (table & Ht & Hne & Hnd & _ & _ & Hlen).
  exists table. auto.
Defined.

(** X13: the first relay of the necessary-relays table is a most-used
    relay: no relay is used by more followers than the count shown in the
    first entry. *)
Theorem necessary_relays_table_starts_with_most_used
        (hostname : string -> string) (sort_values : Frame Z -> Frame Z)
        (input : Dict.t (list string))
        (relays_of_followers : bool) (report : RelayReport)
        (r1 : string) (c1 : Z) (others : list (string * Z)) :
  (forall df, Permutation (sort_values df) df) ->
  (forall df, sorted_desc (sort_values df)) ->
  NoDup (Dict.keys input) ->
  ~ In "Count" (Dict.keys input) ->
  get_relay_statistics hostname sort_values relays_of_followers true input = Ok report ->
  necessary_relays_table report = Some ((r1, c1) :: others) ->
  c1 = usage_count hostname input r1 /\
  forall r, usage_count hostname input r <= c1.
Proof.
  intros Hp Hs Hk Hc Hrun Htable.
  destruct (@get_relay_statistics_necessary sort_values hostname input _ _ Hrun)
    as (table & Hmc & Htable').
  rewrite Htable' in Htable. injection Htable as ->.
  destruct (@minimal_cover_table sort_values Hp Hs hostname input Hk Hc _ Hmc)
    as (selected & relay & values & rest & Hloop & _ & _ & Hsel & Htab).
  destruct (usage_frame hostname sort_values input) as [|[r0 v0] rest0] eqn:Hdf;
    [discriminate Hloop|].
  destruct (@selection_head sort_values Hp hostname input Hk r0 v0 rest0 Hdf)
    as (later & Hhead).
  rewrite Hdf in Hhead. rewrite Hhead in Hsel. rewrite Hsel in Htab.
  cbn [map] in Htab. injection Htab as -> -> _.
  split; [reflexivity|]. intros r.
  destruct (in_dec string_dec r (relay_hosts hostname input)) as [Hr|Hr].
  - assert (Hsorted : sorted_desc ((r0, v0) :: rest0)).
    { rewrite <- Hdf. unfold usage_frame. apply Hs. }
    assert (Hcount : forall r' cells, In (r', cells) ((r0, v0) :: rest0) ->
                                      count_of cells = usage_count hostname input r').
    { intros r' cells Hin. rewrite <- Hdf in Hin.
      apply usage_frame_In in Hin; try assumption. destruct Hin as [_ ->].
      unfold count_of. now rewrite DictFacts.get_set_same. }
    assert (Hin : In (r, Dict.set "Count" (usage_count hostname input r)
                                  (usage_cells hostname input r))
                     ((r0, v0) :: rest0)).
    { rewrite <- Hdf. apply usage_frame_In; try assumption.
      split; [now apply relay_hosts_rows | reflexivity]. }
    rewrite <- (Hcount r0 v0 (or_introl eq_refl)).
    rewrite <- (Hcount _ _ Hin).
    destruct Hin as [Heq|Hin].
    + injection Heq as _ <-. lia.
    + unfold sorted_desc in Hsorted. inversion Hsorted as [|? ? _ Hall]; subst.
      rewrite Forall_forall in Hall. apply (Hall _ Hin).
  - destruct (usage_count_bounds hostname input r) as (_ & _ & Hzero).
    rewrite (Hzero Hr).
    destruct (usage_count_bounds hostname input r0) as ([Hge _] & _). exact Hge.
Qed.

Lemma necessary_relays_table_starts_with_most_used_witness :
  NoDup (Dict.keys overlapping_followers) /\
  ~ In "Count" (Dict.keys overlapping_followers) /\
  get_relay_statistics strip_scheme stable_sort false true overlapping_followers =
    Ok {| relays_of_followers_table := None;
          necessary_relays_table := Some [("r1", 3); ("r2", 2)] |} /\
  3 = usage_count strip_scheme overlapping_followers "r1" /\
  forall r, usage_count strip_scheme overlapping_followers r <= 3.
Proof.
  assert (Hk : NoDup (Dict.keys overlapping_followers)).
  { simpl. repeat constructor; simpl; intuition discriminate. }
  assert (Hc : ~ In "Count" (Dict.keys overlapping_followers)).
  { simpl. intuition discriminate. }
  assert (Hrun : get_relay_statistics strip_scheme stable_sort false true
                                      overlapping_followers =
                 Ok {| relays_of_followers_table := None;
                       necessary_relays_table := Some [("r1", 3); ("r2", 2)] |})
    by reflexivity.
  split; [exact Hk|]. split; [exact Hc|]. split; [exact Hrun|].
  exact (@necessary_relays_table_starts_with_most_used
           strip_scheme stable_sort overlapping_followers false _ "r1" 3 [("r2", 2)]
           stable_sort_perm stable_sort_sorted Hk Hc Hrun eq_refl).
Defined.

(** ** The configuration file *)

(** X14: [load_config] always leaves a configuration file behind: an
    existing file is never rewritten (a file that does not parse keeps
    giving the default relays), a missing one is created from the
    defaults; and if dumping and loading the defaults round-trips, calling
    [load_config] again returns the same configuration and leaves the
    file as it is. *)
Theorem load_config_stable
        (json_load : string -> option PyValue) (json_dump : PyValue -> string)
        (config_file : option string) :
  json_load (json_dump default_config) = Some default_config ->
  let '(data, file) := load_config json_load json_dump config_file in
  file <> None /\
  (forall text, config_file = Some text -> file = Some text) /\
  (forall text, config_file = Some text -> json_load text = None ->
                data = default_config) /\
  (config_file = None -> data = default_config /\ file = Some (json_dump default_config)) /\
  load_config json_load json_dump file = (data, file).
Proof.
  intros Hround. destruct config_file as [text|]; simpl.
  - repeat split; try congruence.
    + intros text' [= <-] Hnone. now rewrite Hnone.
  - rewrite Hround. repeat split; congruence.
Qed.

Lemma load_config_stable_witness :
  load_stub (dump_stub default_config) = Some default_config /\
  load_config load_stub dump_stub None = (default_config, Some "default") /\
  load_config load_stub dump_stub (Some "default") = (default_config, Some "default").
Proof.
  assert (H : load_stub (dump_stub default_config) = Some default_config) by reflexivity.
  split; [exact H|]. split; [reflexivity|].
  exact (proj2 (proj2 (proj2 (proj2
           (@load_config_stable load_stub dump_stub None H))))).
Defined.

(** ** Subscriptions of a run *)

Lemma closed_subscription_ids_rounds (f : Filters) (start k : nat) :
  closed_subscription_ids (flat_map (round_actions f) (seq start k)) = seq start k.
Proof.
  revert start. induction k as [|k IH]; intros start; simpl; [reflexivity|].
  f_equal. apply IH.
Qed.

(** X15: when [get_notes] returns, every subscription it opened has been
    closed: the tokens of the subscriptions added during the call are
    pairwise distinct and are exactly the tokens closed during the call,
    one per round consumed. *)
Theorem get_notes_closes_its_subscriptions
        (f : Filters) (w w' : World) (events : Dict.t Event) :
  get_notes f w = Ok (events, w') ->
  exists tokens,
    subscription_ids (trace w') = (subscription_ids (trace w) ++ tokens)%list /\
    closed_subscription_ids (trace w') =
      (closed_subscription_ids (trace w) ++ tokens)%list /\
    NoDup tokens /\
    List.length tokens = (List.length (network w) - List.length (network w'))%nat.
Proof.
  intros Hrun. unfold get_notes in Hrun. apply get_notes_loop_inv in Hrun.
  destruct Hrun as [(_ & _ & ->) | (_ & before & r & after & Hnet & _ & _ & _ & ->)].
  - exists []. rewrite !app_nil_r. repeat split; [constructor | simpl; lia].
  - exists (seq (uuid_clock w) (S (List.length before))).
    unfold after_rounds; cbn [trace network].
    unfold subscription_ids, closed_subscription_ids. rewrite !flat_map_app.
    split; [|split; [|split]].
    + f_equal. exact (subscription_ids_rounds f (uuid_clock w) (S (List.length before))).
    + f_equal.
      exact (closed_subscription_ids_rounds f (uuid_clock w) (S (List.length before))).
    + apply seq_NoDup.
    + rewrite length_seq, Hnet.
      assert (Hskip : skipn (S (List.length before)) (before ++ r :: after)%list = after).
      { clear. induction before as [|b before IH]; [reflexivity | exact IH]. }
      rewrite Hskip, length_app. simpl. lia.
Qed.

Lemma get_notes_closes_its_subscriptions_witness :
  get_notes no_filters four_relays =
    Ok (drain_events [arrival_1] Dict.empty, after_rounds no_filters 1 four_relays) /\
  exists tokens,
    subscription_ids (trace (after_rounds no_filters 1 four_relays)) =
      (subscription_ids (trace four_relays) ++ tokens)%list /\
    closed_subscription_ids (trace (after_rounds no_filters 1 four_relays)) =
      (closed_subscription_ids (trace four_relays) ++ tokens)%list /\
    NoDup tokens /\
    List.length tokens =
      (List.length (network four_relays) -
       List.length (network (after_rounds no_filters 1 four_relays)))%nat.
Proof.
  assert (H : get_notes no_filters four_relays =
              Ok (drain_events [arrival_1] Dict.empty,
                  after_rounds no_filters 1 four_relays)) by reflexivity.
  split; [exact H|].
  exact (@get_notes_closes_its_subscriptions no_filters four_relays _ _ H).
Defined.
